(** * NGN.DATA.Store: a shallow embedding of [src/lib/store.js]

    The store keeps an array of records ([_data]), an index object mapping a
    field name to an array of buckets [[value, pos, pos, ...]], an array of
    filter functions, and two change-tracking arrays ([_created],
    [_deleted]).  Every method of the class is translated below as a function
    over an explicit store state; methods that can throw, or that emit events,
    live in a small exception/state monad.

    The record class (NGN.DATA.Model) and the event bus are outside [src/]:
    records are objects with own properties, a checksum and an identity
    attribute, and [emit] appends to a log.  What [deduplicate] takes from
    the record class, the serialization of a record and the transient model
    of [remove], is a parameter of its translation. *)

From Stdlib Require Import ZArith List Bool Lia.
From stdpp Require Import base gmap strings list pretty.
Import ListNotations.

Local Open Scope Z_scope.

(** ** JavaScript primitive values *)

(** Field values, bucket headers and bucket positions are JavaScript
    primitives.  Numbers are modelled as integers (positions are array
    offsets); [NaN], fractions and object-valued fields are outside the
    model, and so are integers that no double holds. *)
Inductive value : Type :=
  | VUndefined
  | VNull
  | VBool (b : bool)
  | VNum (n : Z)
  | VStr (s : string).

(** [a === b] on primitives. *)
Definition strict_eq (a b : value) : bool :=
  match a, b with
  | VUndefined, VUndefined => true
  | VNull, VNull => true
  | VBool x, VBool y => Bool.eqb x y
  | VNum x, VNum y => x =? y
  | VStr x, VStr y => String.eqb x y
  | _, _ => false
  end.

(** [ToBoolean]: the falsy primitives are undefined, null, false, 0 and ''. *)
Definition truthy (v : value) : bool :=
  match v with
  | VUndefined | VNull => false
  | VBool b => b
  | VNum n => negb (n =? 0)
  | VStr s => negb (String.eqb s EmptyString)
  end.

(** [Number::toString] for integers.  The number is the double nearest to
    the integer; its digits are the shortest decimal that reads back as that
    double, printed in full below 10^21 and in exponent form from there on.
    Up to 2^53 that is the integer's own decimal form. *)
Definition to_double (n : Z) : Z :=
  let e := Z.log2 n in
  if e <=? 52 then n
  else
    let ulp := 2 ^ (e - 52) in
    let q := n / ulp in
    let r := n mod ulp in
    let half := ulp / 2 in
    (if (half <? r) || ((r =? half) && Z.odd q) then q + 1 else q) * ulp.

Definition reads_back (x c : Z) : bool :=
  let t := Z.log2 x - 52 in
  let m := x / 2 ^ t in
  let lo4 := 4 * x - (if m =? 2 ^ 52 then 2 ^ t else 2 * 2 ^ t) in
  let hi4 := 4 * x + 2 * 2 ^ t in
  ((lo4 <? 4 * c) && (4 * c <? hi4))
  || (Z.even m && ((4 * c =? lo4) || (4 * c =? hi4))).

Definition digits_of (x : Z) : Z := Z.of_nat (String.length (pretty x)).

Fixpoint shortest (fuel : nat) (k : Z) (x : Z) : Z :=
  match fuel with
  | O => x
  | S fuel' =>
      let p := digits_of x - k in
      if p <? 0 then x
      else
        let c1 := x / 10 ^ p * 10 ^ p in
        let c2 := c1 + 10 ^ p in
        let ok1 := reads_back x c1 in
        let ok2 := reads_back x c2 in
        if ok1 && ok2 then
          if x - c1 <? c2 - x then c1
          else if c2 - x <? x - c1 then c2
          else if Z.even (c1 / 10 ^ p) then c1 else c2
        else if ok1 then c1
        else if ok2 then c2
        else shortest fuel' (k + 1) x
  end.

Fixpoint strip_zeros (fuel : nat) (c : Z) : Z :=
  match fuel with
  | O => c
  | S fuel' => if c mod 10 =? 0 then strip_zeros fuel' (c / 10) else c
  end.

Definition number_to_string (n : Z) : string :=
  let a := Z.abs n in
  let sign := if n <? 0 then "-" else EmptyString in
  let x := to_double a in
  if x <=? 2 ^ 53 then sign +:+ pretty x
  else if 2 ^ 1024 <=? x then sign +:+ "Infinity"
  else
    let c := shortest 17 1 x in
    let n_exp := digits_of c in
    if n_exp <=? 21 then sign +:+ pretty c
    else
      let s := pretty (strip_zeros 400 c) in
      match s with
      | String d EmptyString => sign +:+ String d ("e+" +:+ pretty (n_exp - 1))
      | String d rest => sign +:+ String d ("." +:+ rest +:+ "e+" +:+ pretty (n_exp - 1))
      | EmptyString => EmptyString
      end.

(** [ToString] on primitives. *)
Definition to_string (v : value) : string :=
  match v with
  | VUndefined => "undefined"
  | VNull => "null"
  | VBool true => "true"
  | VBool false => "false"
  | VNum n => number_to_string n
  | VStr s => s
  end.

(** [String.prototype.trim], for the ASCII white space characters. *)
Fixpoint trim_start (s : string) : string :=
  match s with
  | String c s' => if Ascii.is_space c then trim_start s' else s
  | EmptyString => EmptyString
  end.

Definition trim (s : string) : string :=
  String.rev (trim_start (String.rev (trim_start s))).

(** [String.prototype.toLowerCase], for the ASCII letters. *)
Definition lower_ascii (c : Ascii.ascii) : Ascii.ascii :=
  let n := Ascii.nat_of_ascii c in
  if ((65 <=? n) && (n <=? 90))%nat then Ascii.ascii_of_nat (n + 32) else c.

Fixpoint toLowerCase (s : string) : string :=
  match s with
  | String c s' => String (lower_ascii c) (toLowerCase s')
  | EmptyString => EmptyString
  end.

(** ** Array primitives *)

Section Arrays.
Context {A : Type}.

(** [findIndex(test)]: offset of the first element passing [test], or -1. *)
Fixpoint findIndex_from (test : A -> bool) (l : list A) (i : Z) : Z :=
  match l with
  | [] => -1
  | x :: l' => if test x then i else findIndex_from test l' (i + 1)
  end.

Definition findIndex (test : A -> bool) (l : list A) : Z :=
  findIndex_from test l 0.

(** [splice(start, 1)]: a negative [start] counts from the end, a [start]
    beyond the end removes nothing.  Returns the removed elements and the
    array that is left. *)
Definition splice1 (start : Z) (l : list A) : list A * list A :=
  let len := Z.of_nat (length l) in
  let actual := if start <? 0 then Z.max (len + start) 0 else Z.min start len in
  let n := Z.to_nat actual in
  (firstn 1 (skipn n l), firstn n l ++ skipn (S n) l).

(** [sort(compare)]: a stable insertion sort; [compare a b > 0] places [a]
    after [b].  For a comparator that is not a consistent ordering the
    result of the built-in is implementation-defined. *)
Fixpoint sort_insert (compare : A -> A -> Z) (x : A) (l : list A) : list A :=
  match l with
  | [] => [x]
  | y :: l' =>
      if compare x y <=? 0 then x :: y :: l' else y :: sort_insert compare x l'
  end.

Definition array_sort (compare : A -> A -> Z) (l : list A) : list A :=
  fold_right (sort_insert compare) [] l.
End Arrays.

(** [indexOf(x)] on an array of primitives uses strict equality. *)
Definition indexOf_value (x : value) (l : list value) : Z :=
  findIndex (fun y => strict_eq y x) l.

(** [sort()] without a comparator: undefined goes last, everything else is
    ordered by the code units of its string conversion. *)
Definition default_compare (a b : value) : Z :=
  match a, b with
  | VUndefined, VUndefined => 0
  | VUndefined, _ => 1
  | _, VUndefined => -1
  | _, _ =>
      if String.ltb (to_string a) (to_string b) then -1
      else if String.ltb (to_string b) (to_string a) then 1 else 0
  end.

Definition default_sort (l : list value) : list value :=
  array_sort default_compare l.

(** ** Records

    A record is a JavaScript object: it has an identity (its reference) and
    mutable own properties.  The store keeps references, so a record changed
    through one reference is changed in [_data], [_created] and [_deleted]
    alike. *)
Definition ref := positive.

Record entity := {
  fields : gmap string value;   (* the own data properties *)
  checksum : value;             (* the identity token [rec.checksum] *)
  idAttribute : string;         (* [rec.idAttribute] *)
  instanceof_Model : bool       (* [rec instanceof NGN.DATA.Model] *)
}.

Definition heap := ref -> entity.

(** [rec.hasOwnProperty(field)] *)
Definition hasOwnProperty (h : heap) (r : ref) (field : string) : bool :=
  bool_decide (is_Some (fields (h r) !! field)).

(** [rec[field]]: undefined when the property is absent. *)
Definition prop (h : heap) (r : ref) (field : string) : value :=
  default VUndefined (fields (h r) !! field).

Definition ref_eqb (a b : ref) : bool := Pos.eqb a b.

(** [array.indexOf(record)]: by object identity. *)
Definition indexOf_ref (r : ref) (l : list ref) : Z :=
  findIndex (fun x => ref_eqb x r) l.

(** ** Filters, comparators and events *)

(** A function handed to [Array.prototype.filter]: it is called with an
    element of the array, which is a record or, for an array built from stale
    positions, [undefined] ([None]).  Predicates are taken to read the record
    only (not the offset or the array, which [filter] also passes). *)
Definition item := option ref.
Definition predicate := heap -> item -> bool.

(** A registered filter is a function object: [fid] stands for its identity,
    which is what [_filters.indexOf(fn)] compares. *)
Record filter := { fid : nat; test : predicate }.

Definition filter_eqb (a b : filter) : bool := Nat.eqb (fid a) (fid b).

(** A comparator handed to [Array.prototype.sort], with its result converted
    to a number. *)
Definition comparator := heap -> ref -> ref -> Z.

Inductive event : Type :=
  | RecordDuplicate (r : ref)
  | RecordCreate (r : ref)
  | RecordUpdate (r : ref)
  | RecordDelete (r : ref)
  | Clear
  | FilterCreate (f : filter)
  | FilterDelete (f : filter)
  | IndexCreated (field : string)
  | Loaded       (* 'load' *)
  | Reloaded.    (* 'reload' *)

(** ** The store *)

(** A bucket is the array [[value, pos, pos, ...]]; an index entry is the
    array of the buckets of one field. *)
Definition bucket := list value.

Record store := {
  _data : list ref;
  _filters : list filter;
  _index : gmap string (list bucket);
  _created : list ref;
  _deleted : list ref;
  _loading : bool;
  allowDuplicates : bool;
  errorOnDuplicate : bool;
  listeners : list ref;   (* one entry per [listen(record)] registration *)
  emitted : list event;   (* what was passed to [emit], oldest first *)
  model : bool            (* [this.model] is a model class, not [null] *)
}.

Definition set_data (d : list ref) (s : store) : store :=
  {| _data := d; _filters := _filters s; _index := _index s;
     _created := _created s; _deleted := _deleted s; _loading := _loading s;
     allowDuplicates := allowDuplicates s; errorOnDuplicate := errorOnDuplicate s;
     listeners := listeners s; emitted := emitted s;
     model := model s |}.

Definition set_filters (f : list filter) (s : store) : store :=
  {| _data := _data s; _filters := f; _index := _index s;
     _created := _created s; _deleted := _deleted s; _loading := _loading s;
     allowDuplicates := allowDuplicates s; errorOnDuplicate := errorOnDuplicate s;
     listeners := listeners s; emitted := emitted s;
     model := model s |}.

Definition set_index (i : gmap string (list bucket)) (s : store) : store :=
  {| _data := _data s; _filters := _filters s; _index := i;
     _created := _created s; _deleted := _deleted s; _loading := _loading s;
     allowDuplicates := allowDuplicates s; errorOnDuplicate := errorOnDuplicate s;
     listeners := listeners s; emitted := emitted s;
     model := model s |}.

Definition set_created (c : list ref) (s : store) : store :=
  {| _data := _data s; _filters := _filters s; _index := _index s;
     _created := c; _deleted := _deleted s; _loading := _loading s;
     allowDuplicates := allowDuplicates s; errorOnDuplicate := errorOnDuplicate s;
     listeners := listeners s; emitted := emitted s;
     model := model s |}.

Definition set_deleted (d : list ref) (s : store) : store :=
  {| _data := _data s; _filters := _filters s; _index := _index s;
     _created := _created s; _deleted := d; _loading := _loading s;
     allowDuplicates := allowDuplicates s; errorOnDuplicate := errorOnDuplicate s;
     listeners := listeners s; emitted := emitted s;
     model := model s |}.

Definition set_loading (b : bool) (s : store) : store :=
  {| _data := _data s; _filters := _filters s; _index := _index s;
     _created := _created s; _deleted := _deleted s; _loading := b;
     allowDuplicates := allowDuplicates s; errorOnDuplicate := errorOnDuplicate s;
     listeners := listeners s; emitted := emitted s;
     model := model s |}.

Definition add_listener (r : ref) (s : store) : store :=
  {| _data := _data s; _filters := _filters s; _index := _index s;
     _created := _created s; _deleted := _deleted s; _loading := _loading s;
     allowDuplicates := allowDuplicates s; errorOnDuplicate := errorOnDuplicate s;
     listeners := listeners s ++ [r]; emitted := emitted s;
     model := model s |}.

Definition log_event (e : event) (s : store) : store :=
  {| _data := _data s; _filters := _filters s; _index := _index s;
     _created := _created s; _deleted := _deleted s; _loading := _loading s;
     allowDuplicates := allowDuplicates s; errorOnDuplicate := errorOnDuplicate s;
     listeners := listeners s; emitted := emitted s ++ [e];
     model := model s |}.

(** [new Store(cfg)] for a [cfg] that names a model class: [cfg.index] lists
    the fields indexed from the start; [errorOnDuplicate] defaults to
    [allowDuplicates], which defaults to true. *)
Definition new_store (index : list string) (allowDup : option bool)
    (errorOnDup : option bool) : store :=
  {| _data := [];
     _filters := [];
     _index := fold_left (fun obj i => <[i := []]> obj) index ∅;
     _created := [];
     _deleted := [];
     _loading := false;
     allowDuplicates := default true allowDup;
     errorOnDuplicate := default (default true allowDup) errorOnDup;
     listeners := [];
     emitted := [];
     model := true |}.

(** The store made from the same [cfg] without [cfg.model]. *)
Definition without_model (s : store) : store :=
  {| _data := _data s; _filters := _filters s; _index := _index s;
     _created := _created s; _deleted := _deleted s; _loading := _loading s;
     allowDuplicates := allowDuplicates s; errorOnDuplicate := errorOnDuplicate s;
     listeners := listeners s; emitted := emitted s;
     model := false |}.

(** ** Methods that throw or emit: an exception/state monad *)

Inductive error : Type :=
  | NonObjectRecord     (* 'Cannot add a non-object record.' *)
  | DuplicateRecord     (* 'Cannot add duplicate record (allowDuplicates = false).' *)
  | RecordNotFound      (* 'Record removal failed (record not found at index ...).' *)
  | TypeError           (* raised by the language itself *)
  | OutsideModel.       (* no error of the code: the call returned and left the
                           store in a state that [store] cannot hold *)

(** A call either returns a value or throws; in both cases the store is left
    in the state the call had reached. *)
Inductive outcome (A : Type) : Type :=
  | Returned (a : A) (s : store)
  | Thrown (e : error) (s : store).
Arguments Returned {A} a s.
Arguments Thrown {A} e s.

Definition M (A : Type) : Type := store -> outcome A.

Definition ret {A} (a : A) : M A := fun s => Returned a s.
Definition throw {A} (e : error) : M A := fun s => Thrown e s.
Definition bind {A B} (m : M A) (k : A -> M B) : M B :=
  fun s => match m s with
           | Returned a s' => k a s'
           | Thrown e s' => Thrown e s'
           end.
Definition get : M store := fun s => Returned s s.
Definition modify (f : store -> store) : M unit := fun s => Returned tt (f s).
Definition emit (e : event) : M unit := modify (log_event e).
Definition when (b : bool) (m : M unit) : M unit := if b then m else ret tt.

Declare Scope store_scope.
Delimit Scope store_scope with store.
Notation "x <- m ;; k" := (bind m (fun x => k))
  (at level 100, m at next level, right associativity) : store_scope.
Notation "m ;; k" := (bind m (fun _ => k))
  (at level 100, right associativity) : store_scope.
Local Open Scope store_scope.

(** The store a call leaves behind, and the value it returned (if any). *)
Definition final {A} (o : outcome A) : store :=
  match o with Returned _ s => s | Thrown _ s => s end.

Definition returned {A} (o : outcome A) : option A :=
  match o with Returned a _ => Some a | Thrown _ _ => None end.

(** [forEach] over an array with a monadic body. *)
Fixpoint forEach {A} (l : list A) (body : A -> M unit) : M unit :=
  match l with
  | [] => ret tt
  | x :: l' => body x ;; forEach l' body
  end.

(** ** Index maintenance *)

(** [bucket[0]]: undefined on an empty bucket. *)
Definition bucket_head (b : bucket) : value := hd VUndefined b.

(** The body of [applyIndices] for one indexed field the record has: scan the
    buckets for one whose header equals the record's value and push [num] on
    it; when the scan finds none, push the new bucket [[value, num]]. *)
Fixpoint apply_value (x : value) (num : Z) (values : list bucket) : list bucket :=
  match values with
  | [] => [[x; VNum num]]
  | b :: rest =>
      if strict_eq (bucket_head b) x then (b ++ [VNum num]) :: rest
      else b :: apply_value x num rest
  end.

(** [applyIndices(record, num)] *)
Definition applyIndices (h : heap) (record : ref) (num : Z) (s : store) : store :=
  set_index
    (map_imap (fun field values =>
       Some (if hasOwnProperty h record field
             then apply_value (prop h record field) num values
             else values)) (_index s)) s.

(** In [unapplyIndices] the search [this._index[field].indexOf(num)] runs over
    the array of buckets: each element is an Array object, [num] is a number,
    and [===] between an object and a number is false. *)
Definition bucket_is_number (b : bucket) (num : Z) : bool := false.

(** [unapplyIndices(num)] *)
Definition unapplyIndices (num : Z) (s : store) : store :=
  set_index
    ((fun buckets =>
        let i := findIndex (fun b => bucket_is_number b num) buckets in
        if 0 <=? i then snd (splice1 i buckets) else buckets) <$> _index s) s.

(** [clearIndices()] *)
Definition clearIndices (s : store) : store :=
  set_index ((fun _ => []) <$> _index s) s.

(** [reindex()] *)
Fixpoint reindex_from (h : heap) (l : list ref) (i : Z) (s : store) : store :=
  match l with
  | [] => s
  | rec :: l' => reindex_from h l' (i + 1) (applyIndices h rec i s)
  end.

Definition reindex (h : heap) (s : store) : store :=
  let s := clearIndices s in
  reindex_from h (_data s) 0 s.

(** The loop of [updateIndice] over the buckets of the field, from bucket [i]
    on, with the counter [ct] of buckets dealt with so far. *)
Fixpoint updateIndice_loop (oldValue newValue : value) (num : Z) (ct : nat)
    (buckets : list bucket) : list bucket :=
  match buckets with
  | [] => []
  | b :: rest =>
      let value := bucket_head b in
      let '(b', ct') :=
        if strict_eq value oldValue then
          (snd (splice1 (indexOf_value (VNum num) b) b), S ct)
        else if strict_eq newValue VUndefined then
          (b, S ct)
        else if strict_eq value newValue then
          (* push(num); shift(); sort(); unshift(value) *)
          (value :: default_sort (tl (b ++ [VNum num])), S ct)
        else (b, ct) in
      if Nat.eqb ct' 2 then b' :: rest
      else b' :: updateIndice_loop oldValue newValue num ct' rest
  end.

(** [updateIndice(field, oldValue, newValue, num)] *)
Definition updateIndice (field : string) (oldValue newValue : value) (num : Z)
    (s : store) : store :=
  match _index s !! field with
  | None => s
  | Some buckets =>
      if strict_eq oldValue newValue then s
      else set_index
             (<[field := updateIndice_loop oldValue newValue num 0 buckets]> (_index s)) s
  end.

(** [dataarray.length > 0 && dataarray[0] === value] *)
Definition bucket_matches (v : value) (dataarray : bucket) : bool :=
  (0 <? length dataarray)%nat && strict_eq (bucket_head dataarray) v.

(** [indexes[0].shift()] acts on the bucket object held by the index: the
    first bucket passing the test loses its first element. *)
Fixpoint shift_matching (v : value) (buckets : list bucket) : list bucket :=
  match buckets with
  | [] => []
  | b :: rest =>
      if bucket_matches v b then tl b :: rest else b :: shift_matching v rest
  end.

(** [getIndices(field, value)]: [None] is the [null] returned for a field
    that is not indexed. *)
Definition getIndices (field : string) (v : value) : M (option (list value)) :=
  fun s =>
    match _index s !! field with
    | None => Returned None s
    | Some buckets =>
        match List.filter (bucket_matches v) buckets with
        | [b] =>
            Returned (Some (tl b))
              (set_index (<[field := shift_matching v buckets]> (_index s)) s)
        | _ => Returned (Some []) s
        end
    end.

(** ** Filters *)

(** [applyFilters(data)].  With no filter the method returns its argument,
    the very same array object; otherwise every [data.filter(filter)] builds
    a new array. *)
Inductive filtered : Type :=
  | SameArray                  (* the argument itself *)
  | NewArray (l : list item).  (* a freshly allocated array *)

Definition applyFilters_result (h : heap) (s : store) (data : list item) : filtered :=
  match _filters s with
  | [] => SameArray
  | fs => NewArray (fold_left (fun data f => List.filter (test f h) data) fs data)
  end.

Definition applyFilters (h : heap) (s : store) (data : list item) : list item :=
  match applyFilters_result h s data with
  | SameArray => data
  | NewArray l => l
  end.

(** The getters [records] and [recordCount]. *)
Definition records (h : heap) (s : store) : list item :=
  applyFilters h s (map Some (_data s)).

Definition recordCount (h : heap) (s : store) : nat :=
  length (applyFilters h s (map Some (_data s))).

(** [addFilter(fn)] *)
Definition addFilter (fn : filter) : M unit :=
  modify (fun s => set_filters (_filters s ++ [fn]) s) ;;
  emit (FilterCreate fn).

(** [removeFilter(fn, suppressEvents)]: [fn] is a number or a function. *)
Inductive filter_arg : Type :=
  | ByNumber (n : Z)
  | ByFunction (fn : filter).

Definition removeFilter (fn : filter_arg) (suppressEvents : bool) : M unit :=
  s <- get ;;
  let '(removed, rest) :=
    match fn with
    | ByNumber n => splice1 n (_filters s)
    | ByFunction f => splice1 (findIndex (fun g => filter_eqb g f) (_filters s)) (_filters s)
    end in
  modify (set_filters rest) ;;
  match removed with
  | r0 :: _ => when (negb suppressEvents) (emit (FilterDelete r0))
  | [] => ret tt
  end.

(** [clearFilters(suppressEvents)]: without suppression the filters are
    popped one by one, last first, each with its event. *)
Definition clearFilters (suppressEvents : bool) : M unit :=
  if suppressEvents then modify (set_filters [])
  else
    s <- get ;;
    forEach (rev (_filters s))
      (fun f =>
         modify (fun s => set_filters (removelast (_filters s)) s) ;;
         emit (FilterDelete f)).

(** ** Adding records *)

(** [isDuplicate(record)] *)
Definition isDuplicate (h : heap) (record : ref) (s : store) : bool :=
  if 0 <=? indexOf_ref record (_data s) then false
  else
    (0 <? length (List.filter
                    (fun rec => strict_eq (checksum (h rec)) (checksum (h record)))
                    (_data s)))%nat.

(** [listen(record)]: the two handlers are registered on the record; they
    run when the record announces a change (see [field_update] below). *)
Definition listen (record : ref) : M unit := modify (add_listener record).

(** The argument of [add]: a record (an [NGN.DATA.Entity], or a payload that
    the store's model has turned into one), or something whose [typeof] is
    not ['object']. *)
Inductive payload : Type :=
  | Entity (r : ref)
  | NonObject.

(** The part of [add] after the duplicate check. *)
Definition add_insert (h : heap) (rec : ref) (suppressEvent : bool) : M unit :=
  listen rec ;;
  s <- get ;;
  modify (applyIndices h rec (Z.of_nat (length (_data s)))) ;;
  modify (fun s => set_data (_data s ++ [rec]) s) ;;
  s <- get ;;
  when (negb (_loading s) && (indexOf_ref rec (_created s) <? 0))
       (modify (fun s => set_created (_created s ++ [rec]) s)) ;;
  when (negb suppressEvent) (emit (RecordCreate rec)).

(** [add(data, suppressEvent)].  The assignment [rec._store = me] is left
    out: the store never reads that property. *)
Definition add (h : heap) (data : payload) (suppressEvent : bool) : M unit :=
  match data with
  | NonObject => throw NonObjectRecord
  | Entity rec =>
      s <- get ;;
      if isDuplicate h rec s then
        emit (RecordDuplicate rec) ;;
        if negb (allowDuplicates s) then
          if errorOnDuplicate s then throw DuplicateRecord
          else ret tt
        else add_insert h rec suppressEvent
      else add_insert h rec suppressEvent
  end.

(** [bulk(event, data)]; [load] and [reload] call it with their own event. *)
Definition bulk (h : heap) (ev : event) (data : list payload) : M unit :=
  modify (set_loading true) ;;
  forEach data (fun rec => add h rec true) ;;
  modify (set_loading false) ;;
  modify (set_deleted []) ;;
  modify (set_created []) ;;
  emit ev.

(** [clear()] *)
Definition clear : M unit :=
  modify (set_data []) ;;
  modify (fun s => set_index ((fun _ => []) <$> _index s) s) ;;
  emit Clear.

Definition load (h : heap) (data : list payload) : M unit := bulk h Loaded data.

Definition reload (h : heap) (data : list payload) : M unit :=
  clear ;; bulk h Reloaded data.

(** ** Looking records up and removing them *)

(** [indexOf(record)] for an object: -1 for one that is no instance of
    NGN.DATA.Model and has no truthy checksum, else the offset of the first
    stored record with the same checksum. *)
Definition indexOf (h : heap) (record : ref) (s : store) : Z :=
  if negb (instanceof_Model (h record)) && negb (truthy (checksum (h record))) then -1
  else findIndex (fun el => strict_eq (checksum (h el)) (checksum (h record))) (_data s).

(** [contains(record)] *)
Definition contains (h : heap) (record : ref) (s : store) : bool :=
  0 <=? indexOf h record s.

(** The first argument of [remove], by the branch it takes: a number; an
    object with a truthy checksum or an instance of NGN.DATA.Model, looked
    up with [indexOf]; or anything else, of which only the checksum of the
    transient model built from it is used. *)
Inductive identifier : Type :=
  | Position (n : Z)
  | OfRecord (r : ref)
  | OfPayload (checksum : value).

(** The offset [num] that [remove] computes first. *)
Definition remove_num (h : heap) (data : identifier) (s : store) : Z :=
  match data with
  | Position n => n
  | OfRecord r => indexOf h r s
  | OfPayload c => findIndex (fun el => strict_eq (checksum (h el)) c) (_data s)
  end.

(** [remove(data, suppressEvents)] *)
Definition remove (h : heap) (data : identifier) (suppressEvents : bool) : M unit :=
  s <- get ;;
  let num := remove_num h data s in
  if num <? 0 then throw RecordNotFound
  else
    let '(removed, rest) := splice1 num (_data s) in
    modify (set_data rest) ;;
    match removed with
    | removed :: _ =>
        modify (unapplyIndices num) ;;
        s <- get ;;
        when (negb (_loading s))
          (let i := indexOf_ref removed (_created s) in
           if 0 <=? i then modify (set_created (snd (splice1 i (_created s))))
           else if indexOf_ref removed (_deleted s) <? 0
                then modify (set_deleted (_deleted s ++ [removed]))
                else ret tt) ;;
        when (negb suppressEvents) (emit (RecordDelete removed))
    | [] => ret tt
    end.

(** ** find *)

Inductive query : Type :=
  | QAbsent                                 (* undefined *)
  | QNull                                   (* null: [typeof null] is 'object' *)
  | QNumber (n : Z)
  | QFunction (p : predicate)
  | QString (q : string)
  | QModel (r : ref)                        (* an NGN.DATA.Model instance *)
  | QObject (q : list (string * value)).    (* own properties, in [Object.keys] order *)

(** What [find] returns: [null], one record, or an array. *)
Inductive found : Type :=
  | FNull
  | FRecord (r : ref)
  | FArray (l : list item).

(** [query[field]] on a plain object. *)
Fixpoint query_get (q : list (string * value)) (field : string) : value :=
  match q with
  | [] => VUndefined
  | (k, v) :: q' => if String.eqb k field then v else query_get q' field
  end.

(** [me._data[index]] for an element [index] of a bucket: a number reads the
    element at that offset, a string that spells an offset reads it too, and
    any other property key is undefined. *)
Definition data_at (s : store) (index : value) : item :=
  match index with
  | VNum n => if n <? 0 then None else _data s !! Z.to_nat n
  | VStr k =>
      match List.find (fun i => String.eqb (pretty i) k) (seq 0 (length (_data s))) with
      | Some i => _data s !! i
      | None => None
      end
  | _ => None
  end.

(** [data.filter(function (record, i) {...})] for callbacks that use the
    offset. *)
Fixpoint filter_indexed {A} (f : A -> Z -> bool) (l : list A) (i : Z) : list A :=
  match l with
  | [] => []
  | x :: l' =>
      if f x i then x :: filter_indexed f l' (i + 1) else filter_indexed f l' (i + 1)
  end.

(** The [keys.forEach] of the object case: the positions gathered from the
    indexed fields, and the fields that are not indexed. *)
Fixpoint collect (q : list (string * value)) (keys : list string)
    (acc : list value * list string) : M (list value * list string) :=
  match keys with
  | [] => ret acc
  | field :: keys' =>
      index <- getIndices field (query_get q field) ;;
      match index with
      | Some index => collect q keys' (fst acc ++ index, snd acc)
      | None => collect q keys' (fst acc, snd acc ++ [field])
      end
  end.

(** The loop [for (y...) if (query[keys[y]] !== record[keys[y]]) return false]
    and its twin over [noindex]. *)
Definition all_keys_match (h : heap) (q : list (string * value))
    (keys : list string) (record : ref) : bool :=
  forallb (fun k => strict_eq (query_get q k) (prop h record k)) keys.

(** The final [.filter(function (record) {...})] of the object case.  Reading
    [record[keys[y]]] on an undefined element is a TypeError; with no key at
    all the loop body never runs and the element is kept. *)
Fixpoint exact_filter (h : heap) (q : list (string * value)) (keys : list string)
    (l : list item) : option (list item) :=
  match l with
  | [] => Some []
  | Some record :: l' =>
      rest ← exact_filter h q keys l';
      Some (if all_keys_match h q keys record then Some record :: rest else rest)
  | None :: l' =>
      match keys with
      | [] => rest ← exact_filter h q keys l'; Some (None :: rest)
      | _ :: _ => None
      end
  end.

Definition find_object (h : heap) (q : list (string * value)) : M found :=
  let keys := map fst q in
  collected <- collect q keys ([], []) ;;
  let matched := fst collected in
  let noindex := snd collected in
  (* Deduplicate: the array built here is dropped, [match] stays as it is. *)
  let _ := filter_indexed
             (fun index i => indexOf_value index matched =? i) matched 0 in
  s <- get ;;
  let res :=
    match noindex with
    | [] => []
    | _ :: _ =>
        filter_indexed
          (fun record i =>
             if 0 <=? indexOf_value (VNum i) matched then false
             else all_keys_match h q noindex record)
          (_data s) 0
    end in
  match exact_filter h q keys (map Some res ++ map (data_at s) matched) with
  | Some res => ret (FArray res)
  | None => throw TypeError
  end.

(** [(rec[rec.idAttribute] || '').toString().trim()] *)
Definition id_string (h : heap) (rec : ref) : string :=
  let id := prop h rec (idAttribute (h rec)) in
  trim (to_string (if truthy id then id else VStr EmptyString)).

(** [find(query, ignoreFilters)] *)
Definition find (h : heap) (q : query) (ignoreFilters : bool) : M found :=
  s <- get ;;
  if Nat.eqb (length (_data s)) 0 then ret (FArray [])
  else
    (* the code after the [switch] *)
    let finish (res : found) : M found :=
      match res with
      | FNull => ret FNull
      | _ =>
          let _ :=
            if negb ignoreFilters
            then applyFilters h s
                   match res with
                   | FArray l => l
                   | FRecord r => [Some r]
                   | FNull => []
                   end
            else [] in
          ret res
      end in
    match q with
    | QFunction p =>
        finish (FArray (List.filter (p h) (map Some (_data s))))
    | QNumber n =>
        finish (if (n <? 0) || (Z.of_nat (length (_data s)) <=? n) then FNull
                else match _data s !! Z.to_nat n with
                     | Some r => FRecord r
                     | None => FNull
                     end)
    | QString query =>
        (* [_data[0]] exists: the store is not empty here *)
        i <- getIndices (idAttribute (h (hd 1%positive (_data s)))) (VStr (trim query)) ;;
        s <- get ;;
        match i with
        | Some (index :: i) => ret (FArray (map (data_at s) (index :: i)))
        | _ =>
            let r := List.filter
                       (fun rec => String.eqb (id_string h rec) (trim query))
                       (_data s) in
            finish (match r with [] => FNull | r0 :: _ => FRecord r0 end)
        end
    | QModel r =>
        if contains h r s then ret (FRecord r) else ret FNull
    | QNull => throw TypeError
    | QObject q => res <- find_object h q ;; finish res
    | QAbsent => finish (FArray (map Some (_data s)))
    end.

(** ** sort *)

(** What a key of the sorter object holds: a string or a function. *)
Inductive direction : Type :=
  | DString (d : string)
  | DFunction (c : comparator).

Inductive sorter : Type :=
  | SFunction (c : comparator)
  | SObject (fn : list (string * direction))  (* own properties, in [Object.keys] order *)
  | SNull                                     (* null: [typeof null] is 'object' *)
  | SOther.                                   (* undefined, a number, a string, ... *)

Section Sorting.
(** The relational operator [<] on primitive values ([a > b] is [b < a]).
    It compares numbers numerically and strings by code units; for mixed
    operands it goes through the language's number conversion, which is
    not modelled: the operator is a parameter. *)
Variable js_lt : value -> value -> bool.

(** The comparator that [sort] builds from a sorter object.  The keys of an
    object are distinct, so [fn[keys[i]]] is the direction listed with the
    key.  The string form of a function is its source text, never 'asc' or
    'desc', so a function falls to the [default] case and is called. *)
Fixpoint compare_fields (h : heap) (fn : list (string * direction)) (a b : ref) : Z :=
  match fn with
  | [] => 0
  | (key, dir) :: rest =>
      if hasOwnProperty h a key && negb (hasOwnProperty h b key) then 1
      else if negb (hasOwnProperty h a key) && hasOwnProperty h b key then -1
      else if negb (strict_eq (prop h a key) (prop h b key)) then
        match dir with
        | DString d =>
            let d := toLowerCase (trim d) in
            if String.eqb d "asc" then
              if js_lt (prop h b key) (prop h a key) then 1 else -1
            else if String.eqb d "desc" then
              if js_lt (prop h a key) (prop h b key) then 1 else -1
            else 0
        | DFunction c => c h a b
        end
      else compare_fields h rest a b
  end.

(** [this.records.sort(compare)].  The getter [records] hands out
    [applyFilters(this._data)]: the array [_data] itself when no filter is
    registered, which is then sorted in place, and a new array otherwise,
    which is sorted and dropped. *)
Definition sort_records (h : heap) (compare : ref -> ref -> Z) : M unit :=
  s <- get ;;
  match applyFilters_result h s (map Some (_data s)) with
  | SameArray => modify (set_data (array_sort compare (_data s)))
  | NewArray _ => ret tt
  end.

(** [sort(fn)] *)
Definition sort (h : heap) (fn : sorter) : M unit :=
  match fn with
  | SFunction c => sort_records h (c h)
  | SObject fn => sort_records h (compare_fields h fn)
  | SNull => throw TypeError
  | SOther => ret tt
  end ;;
  modify (reindex h).
End Sorting.

(** ** Creating and deleting indexes *)

(** The property names that every object inherits from [Object.prototype]. *)
Definition inherited_name (field : string) : bool :=
  bool_decide (field ∈ ["constructor"; "__defineGetter__"; "__defineSetter__";
                        "hasOwnProperty"; "__lookupGetter__"; "__lookupSetter__";
                        "isPrototypeOf"; "propertyIsEnumerable"; "toString";
                        "valueOf"; "__proto__"; "toLocaleString"]).

(** [createIndex(field, suppressEvents)].  The first line reads
    [this.model.hasOwnProperty(field)], a TypeError on a store without a
    model; what it prints otherwise is not part of the state.  For a name
    inherited from [Object.prototype] that is not indexed,
    [this._index[field] || []] is the inherited function, and the entry the
    code stores is not an array of buckets. *)
Definition createIndex (field : string) (suppressEvents : bool) : M unit :=
  s <- get ;;
  if negb (model s) then throw TypeError
  else
    let exists_ := bool_decide (is_Some (_index s !! field)) in
    if inherited_name field && negb exists_ then throw OutsideModel
    else
      modify (set_index (<[field := default [] (_index s !! field)]> (_index s))) ;;
      when (negb suppressEvents && negb exists_) (emit (IndexCreated field)).

(** [deleteIndex(field, suppressEvents)]; the event it emits is
    'index.created' as well. *)
Definition deleteIndex (field : string) (suppressEvents : bool) : M unit :=
  s <- get ;;
  if bool_decide (is_Some (_index s !! field)) then
    modify (set_index (delete field (_index s))) ;;
    when (negb suppressEvents) (emit (IndexCreated field))
  else ret tt.

(** ** Record mutation *)

(** Modelled from the spec: the Record capability (the NGN.DATA.Model class
    is not under src/).  A record offers a named-field write and a field
    removal, recomputes its identity token, and then notifies every handler
    subscribed to it with the field, the old value and the new one.  The
    token after the change is supplied by the record, here as [token]. *)
Definition write_field (r : ref) (field : string) (v : value) (token : value)
    (h : heap) : heap :=
  fun r' =>
    if ref_eqb r' r
    then {| fields := <[field := v]> (fields (h r));
            checksum := token;
            idAttribute := idAttribute (h r);
            instanceof_Model := instanceof_Model (h r) |}
    else h r'.

Definition erase_field (r : ref) (field : string) (token : value) (h : heap) : heap :=
  fun r' =>
    if ref_eqb r' r
    then {| fields := delete field (fields (h r));
            checksum := token;
            idAttribute := idAttribute (h r);
            instanceof_Model := instanceof_Model (h r) |}
    else h r'.

(** The handlers that [listen] registers for 'field.update' and
    'field.delete'. *)
Definition on_field_update (record : ref) (field : string) (old new : value) : M unit :=
  s <- get ;;
  modify (updateIndice field old new (indexOf_ref record (_data s))) ;;
  emit (RecordUpdate record).

Definition on_field_delete (record : ref) (field : string) (old : value) : M unit :=
  s <- get ;;
  modify (updateIndice field old VUndefined (indexOf_ref record (_data s))) ;;
  emit (RecordUpdate record).

(** A notification runs the handler once per registration. *)
Definition notify (record : ref) (handler : M unit) : M unit :=
  s <- get ;;
  forEach (List.filter (ref_eqb record) (listeners s)) (fun _ => handler).

(** ** Sequences of operations *)

Record world := { objects : heap; the_store : store }.

Inductive op : Type :=
  | OpAdd (data : payload) (suppressEvent : bool)
  | OpRemove (data : identifier) (suppressEvents : bool)
  | OpSetField (r : ref) (field : string) (v : value) (token : value)
  | OpDeleteField (r : ref) (field : string) (token : value)
  | OpLoad (data : list payload)
  | OpReload (data : list payload)
  | OpClear
  | OpFind (q : query) (ignoreFilters : bool)
  | OpAddFilter (fn : filter)
  | OpRemoveFilter (fn : filter_arg) (suppressEvents : bool)
  | OpClearFilters (suppressEvents : bool)
  | OpCreateIndex (field : string) (suppressEvents : bool)
  | OpDeleteIndex (field : string) (suppressEvents : bool)
  | OpReindex.

(** One operation.  An exception is caught by the caller; the store stays as
    the failed call left it. *)
Definition step (o : op) (w : world) : world :=
  let h := objects w in
  let s := the_store w in
  match o with
  | OpAdd data sup => {| objects := h; the_store := final (add h data sup s) |}
  | OpRemove data sup => {| objects := h; the_store := final (remove h data sup s) |}
  | OpSetField r field v token =>
      let h' := write_field r field v token h in
      {| objects := h';
         the_store := final (notify r (on_field_update r field (prop h r field) v) s) |}
  | OpDeleteField r field token =>
      let h' := erase_field r field token h in
      {| objects := h';
         the_store := final (notify r (on_field_delete r field (prop h r field)) s) |}
  | OpLoad data => {| objects := h; the_store := final (load h data s) |}
  | OpReload data => {| objects := h; the_store := final (reload h data s) |}
  | OpClear => {| objects := h; the_store := final (clear s) |}
  | OpFind q ig => {| objects := h; the_store := final (find h q ig s) |}
  | OpAddFilter fn => {| objects := h; the_store := final (addFilter fn s) |}
  | OpRemoveFilter fn sup => {| objects := h; the_store := final (removeFilter fn sup s) |}
  | OpClearFilters sup => {| objects := h; the_store := final (clearFilters sup s) |}
  | OpCreateIndex field sup => {| objects := h; the_store := final (createIndex field sup s) |}
  | OpDeleteIndex field sup => {| objects := h; the_store := final (deleteIndex field sup s) |}
  | OpReindex => {| objects := h; the_store := reindex h s |}
  end.

Definition run (ops : list op) (w : world) : world :=
  fold_left (fun w o => step o w) ops w.

(** ** Vocabulary of the properties *)

(** The record has the own property [field], with value [v]. *)
Definition has_value (h : heap) (r : ref) (field : string) (v : value) : bool :=
  match fields (h r) !! field with
  | Some x => strict_eq x v
  | None => false
  end.

(** The offsets, counted from [i], of the records of [l] whose [field] is
    [v], in increasing order. *)
Fixpoint positions (h : heap) (field : string) (v : value) (l : list ref) (i : Z) : list Z :=
  match l with
  | [] => []
  | r :: l' =>
      (if has_value h r field v then [i] else []) ++ positions h field v l' (i + 1)
  end.

(** An index entry that tabulates [P]: no bucket is empty, and the buckets
    headed by [v] are none when [P v] is empty and the single bucket
    [[v, P v...]] otherwise. *)
Definition tabulates (P : value -> list Z) (buckets : list bucket) : Prop :=
  Forall (fun b => b <> []) buckets /\
  forall v, List.filter (bucket_matches v) buckets =
            match P v with
            | [] => []
            | ps => [v :: map VNum ps]
            end.

(** The operations of a store under use: adding and removing records, and
    the field changes of its records. *)
Definition add_remove_or_mutation (o : op) : bool :=
  match o with
  | OpAdd _ _ | OpRemove _ _ | OpSetField _ _ _ _ | OpDeleteField _ _ _ => true
  | _ => false
  end.

(** A call started in [s] leaves a store related to [s] by [R]; and it does
    so from every store. *)
Definition preserves_at (R : store -> store -> Prop) {A} (m : M A) (s : store) : Prop :=
  R s (final (m s)).

Definition preserves (R : store -> store -> Prop) {A} (m : M A) : Prop :=
  forall s, preserves_at R m s.

(** The field stays indexed. *)
Definition keeps_index (field : string) (s s' : store) : Prop :=
  is_Some (_index s !! field) -> is_Some (_index s' !! field).




(** The record that [remove(data)] takes out of the store, if any. *)
Definition remove_target (h : heap) (data : identifier) (s : store) : option ref :=
  let num := remove_num h data s in
  if num <? 0 then None else _data s !! Z.to_nat num.

Definition bulk_load (o : op) : bool :=
  match o with
  | OpLoad _ | OpReload _ => true
  | _ => false
  end.

(** Run from [w], the operations [ops] contain no bulk load and no removal
    of the record [r]. *)
Fixpoint leaves_alone (r : ref) (ops : list op) (w : world) : bool :=
  match ops with
  | [] => true
  | o :: ops' =>
      negb (bulk_load o)
      && negb match o with
              | OpRemove data _ =>
                  match remove_target (objects w) data (the_store w) with
                  | Some r' => ref_eqb r' r
                  | None => false
                  end
              | _ => false
              end
      && leaves_alone r ops' (step o w)
  end.

(** The worlds that the operations lead to from a newly made store. *)
Definition reachable (w : world) : Prop :=
  exists h index allowDup errorOnDup ops,
    w = run ops {| objects := h; the_store := new_store index allowDup errorOnDup |}.

(** Relations between the store before and after a call: change tracking is
    untouched; [_created] stays free of repetitions; outside bulk mode the
    record [r] stays in [_created] and neither enters nor leaves
    [_deleted]. *)
Definition same_tracking (s s' : store) : Prop :=
  _created s' = _created s /\ _deleted s' = _deleted s /\ _loading s' = _loading s.

Definition created_NoDup (s s' : store) : Prop :=
  NoDup (_created s) -> NoDup (_created s').

Definition tracks (r : ref) (s s' : store) : Prop :=
  _loading s = false ->
  _loading s' = false /\
  (In r (_created s) -> In r (_created s')) /\
  (In r (_deleted s') <-> In r (_deleted s)).

(** ** Example data *)

Definition blank : entity :=
  {| fields := ∅; checksum := VUndefined; idAttribute := "testid";
     instanceof_Model := false |}.

Definition person (fs : list (string * value)) (token : string) : entity :=
  {| fields := list_to_map fs; checksum := VStr token; idAttribute := "testid";
     instanceof_Model := false |}.

(** The objects [l], allocated at the references [n], [n+1], ... *)
Fixpoint heap_of (l : list entity) (n : ref) : heap :=
  match l with
  | [] => fun _ => blank
  | e :: l' => fun r => if ref_eqb r n then e else heap_of l' (Pos.succ n) r
  end.

Definition john_doe : ref := 1%positive.
Definition jane_doe : ref := 2%positive.
Definition jane_vaughn : ref := 3%positive.

Definition people : heap :=
  heap_of [person [("fname", VStr "John"); ("lname", VStr "Doe")] "a";
           person [("fname", VStr "Jane"); ("lname", VStr "Doe")] "b";
           person [("fname", VStr "Jane"); ("lname", VStr "Vaughn")] "c"] 1%positive.

Definition add_people : list op :=
  [OpAdd (Entity john_doe) false; OpAdd (Entity jane_doe) false;
   OpAdd (Entity jane_vaughn) false].

Definition people_world : world :=
  {| objects := people; the_store := new_store ["lname"] None None |}.

(** Three people in a store indexed on [lname], and on both names. *)
Definition indexed_lname : world := run add_people people_world.

Definition indexed_names : world :=
  run add_people {| objects := people; the_store := new_store ["lname"; "fname"] None None |}.



(** A filter that rejects every record. *)
Definition reject_all : filter := {| fid := 0; test := fun _ _ => false |}.
Definition accept_all : filter := {| fid := 1; test := fun _ _ => true |}.

(** An instance of the relational operator for operands of one type:
    numeric order on numbers, code-unit order on strings. *)
Definition prim_lt (a b : value) : bool :=
  match a, b with
  | VNum x, VNum y => x <? y
  | VStr x, VStr y => String.ltb x y
  | _, _ => false
  end.

(** Two records, the first with an [age], the second without. *)
Definition with_age : ref := 1%positive.
Definition without_age : ref := 2%positive.

Definition guests : heap :=
  heap_of [person [("name", VStr "Ann"); ("age", VNum 30)] "a";
           person [("name", VStr "Bob")] "b"] 1%positive.

Definition guest_list : world :=
  run [OpAdd (Entity with_age) false; OpAdd (Entity without_age) false]
      {| objects := guests; the_store := new_store [] None None |}.

Definition by_age : sorter := SObject [("age", DString "asc")].

(** Two distinct records with the same checksum, for a store that refuses
    duplicates. *)
Definition twins : heap :=
  heap_of [person [("fname", VStr "John")] "same"; person [("fname", VStr "John")] "same"]
          1%positive.

Definition strict_store : store := new_store [] (Some false) (Some true).

(** ** The methods left: deleteIndexes and deduplicate *)

(** [deleteIndexes(suppressEvents)].  [Object.keys(this._index)] lists the
    fields in the order in which they were created, which the map does not
    record: the list of keys is an argument. *)
Definition deleteIndexes (keys : list string) (suppressEvents : bool) : M unit :=
  forEach keys (fun key => deleteIndex key suppressEvents).

Section Deduplicate.
(** [deduplicate] serializes the data of each record with [JSON.stringify],
    and [remove], handed something that is neither an instance of the model
    class nor an object with a truthy checksum, builds a transient model
    from it with [new this.model(data, true)] and takes its checksum.
    Both belong to the model class, whose code is outside the store: they
    are parameters.  The constructor may throw. *)
Variable stringify : heap -> ref -> string.
Variable transient_checksum : found -> value + error.

(** [records.indexOf(record)] on an array of strings. *)
Definition indexOf_string (record : string) (records : list string) : Z :=
  findIndex (fun x => String.eqb x record) records.

(** The [records.forEach] that fills [dupes]: [l] is what is left of
    [records], [i] the offset reached. *)
Fixpoint collect_dupes (h : heap) (records l : list string) (i : Z)
    (dupes : list found) : M (list found) :=
  match l with
  | [] => ret dupes
  | record :: l' =>
      if indexOf_string record records <? i then
        duplicate <- find h (QNumber i) false ;;
        collect_dupes h records l' (i + 1) (dupes ++ [duplicate])
      else collect_dupes h records l' (i + 1) dupes
  end.

(** [me.remove(duplicate)] for the value that [find] returned: [remove]
    looks a record up with [indexOf] when its checksum is truthy or it is
    an instance of NGN.DATA.Model; anything else goes through the transient
    model, which cannot be built on a store without a model class. *)
Definition remove_duplicate (h : heap) (duplicate : found) : M unit :=
  s <- get ;;
  let by_transient_model : M unit :=
    if model s then
      match transient_checksum duplicate with
      | inl c => remove h (OfPayload c) false
      | inr e => throw e
      end
    else throw TypeError in
  match duplicate with
  | FRecord r =>
      if truthy (checksum (h r)) || instanceof_Model (h r)
      then remove h (OfRecord r) false
      else by_transient_model
  | _ => by_transient_model
  end.

(** [deduplicate(suppressEvents)].  The flag is given its default and then
    not used: [remove] is called with one argument. *)
Definition deduplicate (h : heap) (suppressEvents : option bool) : M unit :=
  let suppressEvents := default true suppressEvents in
  s <- get ;;
  let records := map (stringify h) (_data s) in
  dupes <- collect_dupes h records records 0 [] ;;
  forEach dupes (remove_duplicate h).

(** The records at the offsets from [i] on whose serialization occurs at a
    smaller offset of [records], and the other records. *)
Fixpoint dupe_refs (h : heap) (records : list string) (l : list ref) (i : Z) : list ref :=
  match l with
  | [] => []
  | r :: l' =>
      if indexOf_string (stringify h r) records <? i
      then r :: dupe_refs h records l' (i + 1)
      else dupe_refs h records l' (i + 1)
  end.

Fixpoint first_refs (h : heap) (records : list string) (l : list ref) (i : Z) : list ref :=
  match l with
  | [] => []
  | r :: l' =>
      if indexOf_string (stringify h r) records <? i
      then first_refs h records l' (i + 1)
      else r :: first_refs h records l' (i + 1)
  end.
End Deduplicate.

(** The serialization used in the examples: the checksum token. *)
Definition token_of (h : heap) (r : ref) : string :=
  match checksum (h r) with VStr t => t | _ => EmptyString end.

(** The two twins and one more record with another checksum. *)
Definition triplets : heap :=
  heap_of [person [("fname", VStr "John")] "same"; person [("fname", VStr "John")] "same";
           person [("fname", VStr "Jane")] "other"] 1%positive.

Definition three_adds : list op :=
  [OpAdd (Entity 1%positive) false; OpAdd (Entity 2%positive) false;
   OpAdd (Entity 3%positive) false].

Definition with_twins : store :=
  the_store (run three_adds {| objects := triplets; the_store := new_store [] None None |}).

(** ** Vocabulary of the further properties *)

(** A filter accepts the element. *)
Definition passes (h : heap) (x : item) (f : filter) : bool := test f h x.

(** The entry of [field] lists, value by value, exactly the positions of the
    records of [_data] that have the value. *)
Definition index_exact (h : heap) (s : store) (field : string) : Prop :=
  exists buckets,
    _index s !! field = Some buckets /\
    tabulates (fun v => positions h field v (_data s) 0) buckets.

(** The records of [l] that have the value [v] for [field]. *)
Definition having (h : heap) (field : string) (v : value) (l : list ref) : list ref :=
  List.filter (fun r => has_value h r field v) l.

(** While the store is in bulk mode, it stays in it and change tracking
    stands still. *)
Definition bulk_mode (s s' : store) : Prop :=
  _loading s = true ->
  _loading s' = true /\ _created s' = _created s /\ _deleted s' = _deleted s.

(** The operations that only add to the store or rebuild it: no removal, no
    lookup, no change of a stored record, no deletion of an index. *)
Definition insert_only (o : op) : bool :=
  match o with
  | OpAdd _ _ | OpLoad _ | OpReload _ | OpClear | OpAddFilter _
  | OpRemoveFilter _ _ | OpClearFilters _ | OpCreateIndex _ _ | OpReindex => true
  | _ => false
  end.

(** [s'] is [s] with, at most, another index table. *)
Definition same_but_index (s s' : store) : Prop :=
  s' = set_index (_index s') s.

(** Keeping the entry of [field] exact, over a call. *)
Definition keeps_exact (h : heap) (field : string) (s s' : store) : Prop :=
  index_exact h s field -> index_exact h s' field.

(** The lookup of [v] in the entry of [field] returns just the positions of
    the records that have the value. *)
Definition lookup_exact (h : heap) (s : store) (field : string) (v : value) : Prop :=
  exists ps : list Z,
    returned (getIndices field v s) = Some (Some (map VNum ps)) /\
    NoDup ps /\
    forall p, In p ps <->
      0 <= p /\
      exists r, _data s !! Z.to_nat p = Some r /\ fields (h r) !! field = Some v.

(** [s'] is [s] with other buckets, for the same indexed fields. *)
Definition index_only (s s' : store) : Prop :=
  same_but_index s s' /\
  forall f, is_Some (_index s' !! f) <-> is_Some (_index s !! f).

Definition deleted_NoDup (s s' : store) : Prop :=
  NoDup (_deleted s) -> NoDup (_deleted s').

(** The registrations of [listen] are kept, in their order; more may
    follow. *)
Definition keeps_listeners (s s' : store) : Prop :=
  exists l, listeners s' = listeners s ++ l.

(** How often the store has registered its handlers on the record. *)
Definition registrations (r : ref) (s : store) : nat :=
  length (List.filter (ref_eqb r) (listeners s)).

(** ** Basic facts *)

Lemma strict_eq_true (a b : value) : strict_eq a b = true <-> a = b.
Proof.
  destruct a, b; simpl; split; try congruence; try discriminate.
  - intros H. apply Bool.eqb_prop in H. congruence.
  - intros [= ->]. apply Bool.eqb_reflx.
  - intros H. apply Z.eqb_eq in H. congruence.
  - intros [= ->]. apply Z.eqb_refl.
  - intros H. apply String.eqb_eq in H. congruence.
  - intros [= ->]. apply String.eqb_refl.
Qed.

Lemma strict_eq_refl (a : value) : strict_eq a a = true.
Proof. by apply strict_eq_true. Qed.

Lemma strict_eq_false (a b : value) : strict_eq a b = false <-> a <> b.
Proof.
  rewrite <- strict_eq_true. destruct (strict_eq a b); split; congruence.
Qed.

Lemma set_data_same (s : store) : set_data (_data s) s = s.
Proof. by destruct s. Qed.

Lemma set_index_same (s : store) : set_index (_index s) s = s.
Proof. by destruct s. Qed.

Section ArrayFacts.
Context {A : Type}.
Implicit Types (l : list A) (test : A -> bool).

Lemma findIndex_from_none test l i :
  (forall x, In x l -> test x = false) -> findIndex_from test l i = -1.
Proof.
  revert i. induction l as [|x l IH]; intros i H; simpl; [done|].
  rewrite (H x) by (by left). apply IH. intros y Hy. apply H. by right.
Qed.

Lemma findIndex_from_range test l i :
  0 <= i ->
  findIndex_from test l i = -1 \/
  (i <= findIndex_from test l i < i + Z.of_nat (length l)).
Proof.
  revert i. induction l as [|x l IH]; intros i Hi; simpl; [by left|].
  destruct (test x); [right; lia|].
  destruct (IH (i + 1)) as [->|?]; [lia|by left|right; lia].
Qed.

Lemma findIndex_from_found test l i :
  0 <= i -> 0 <= findIndex_from test l i ->
  exists x, l !! Z.to_nat (findIndex_from test l i - i) = Some x /\ test x = true.
Proof.
  revert i. induction l as [|x l IH]; intros i Hi; simpl; [lia|].
  destruct (test x) eqn:Hx.
  - intros _. exists x. by rewrite Z.sub_diag.
  - intros H. destruct (IH (i + 1)) as (y & Hy & Ht); [lia|done|].
    exists y. split; [|done].
    destruct (findIndex_from_range test l (i + 1)) as [E|E]; [lia|lia|].
    replace (Z.to_nat (findIndex_from test l (i + 1) - i))
      with (S (Z.to_nat (findIndex_from test l (i + 1) - (i + 1)))) by lia.
    done.
Qed.

Lemma findIndex_from_neg test l i :
  0 <= i -> findIndex_from test l i < 0 ->
  forall x, In x l -> test x = false.
Proof.
  revert i. induction l as [|y l IH]; intros i Hi H x Hx; [done|].
  simpl in H. destruct (test y) eqn:Hy; [lia|].
  destruct Hx as [->|Hx]; [done|]. apply (IH (i + 1)); [lia|done|done].
Qed.

Lemma findIndex_neg_iff test l :
  findIndex test l < 0 <-> (forall x, In x l -> test x = false).
Proof.
  unfold findIndex. split.
  - by apply findIndex_from_neg.
  - intros H. rewrite findIndex_from_none; [lia|done].
Qed.

(** [splice(start, 1)] at a position past the end removes nothing. *)
Lemma splice1_beyond start l :
  Z.of_nat (length l) <= start -> splice1 start l = ([], l).
Proof.
  intros H. unfold splice1.
  destruct (Z.ltb_spec start 0); [lia|].
  rewrite Z.min_r by lia. rewrite Nat2Z.id.
  rewrite drop_all. simpl.
  rewrite take_ge, drop_ge by lia. by rewrite app_nil_r.
Qed.

(** [splice(-1, 1)] removes the last element. *)
Lemma splice1_last l x : splice1 (-1) (l ++ [x]) = ([x], l).
Proof.
  unfold splice1. change (-1 <? 0) with true. cbv iota.
  rewrite length_app. simpl length.
  replace (Z.to_nat (Z.max (Z.of_nat (length l + 1) + -1) 0)) with (length l) by lia.
  rewrite drop_app_length, take_app_length. simpl.
  rewrite drop_ge by (rewrite length_app; simpl; lia).
  by rewrite app_nil_r.
Qed.

(** [splice(i, 1)] at a position inside the array. *)
Lemma splice1_inside (i : nat) l x :
  l !! i = Some x ->
  splice1 (Z.of_nat i) l = ([x], firstn i l ++ skipn (S i) l).
Proof.
  intros H. unfold splice1.
  pose proof (lookup_lt_Some _ _ _ H) as Hlt.
  destruct (Z.ltb_spec (Z.of_nat i) 0); [lia|].
  rewrite Z.min_l by lia. rewrite Nat2Z.id. f_equal.
  by rewrite (drop_S _ _ _ H).
Qed.
End ArrayFacts.

(** ** Scenarios run on the model *)

(** Index on [lname]: [find({lname: 'Doe'})] returns the first two records,
    in their order. *)
Example find_by_indexed_field :
  returned (find people (QObject [("lname", VStr "Doe")]) false (the_store indexed_lname))
    = Some (FArray [Some john_doe; Some jane_doe]).
Proof. vm_compute; reflexivity. Qed.

(** A lookup hands out the bucket that the index holds, minus its header,
    which [shift()] has taken off the bucket itself. *)
Example getIndices_shifts_bucket :
  getIndices "lname" (VStr "Doe") (the_store indexed_lname)
    = Returned (Some [VNum 0; VNum 1])
        (set_index (<["lname" := [[VNum 0; VNum 1]; [VStr "Vaughn"; VNum 2]]]> ∅)
           (the_store indexed_lname)).
Proof. vm_compute; reflexivity. Qed.

(** A changed field moves the position to the bucket of the new value. *)
Example field_update_moves_position :
  _index (the_store (step (OpSetField john_doe "lname" (VStr "Vaughn") (VStr "d"))
                          indexed_lname)) !! "lname"
    = Some [[VStr "Doe"; VNum 1]; [VStr "Vaughn"; VNum 0; VNum 2]].
Proof. vm_compute; reflexivity. Qed.

(** [allowDuplicates = false], [errorOnDuplicate = true]: the second record
    with the same checksum is announced, refused with an error, and the
    record count stays 1. *)
Example duplicate_is_refused :
  let s := final (add twins (Entity 1%positive) false strict_store) in
  add twins (Entity 2%positive) false s
    = Thrown DuplicateRecord (log_event (RecordDuplicate 2%positive) s) /\
  recordCount twins s = 1%nat.
Proof. split; vm_compute; reflexivity. Qed.

(** Removing by record, then by position. *)
Example remove_by_record_and_position :
  _data (the_store (run [OpRemove (OfRecord john_doe) false; OpRemove (Position 0) false]
                        indexed_lname)) = [jane_vaughn].
Proof. vm_compute; reflexivity. Qed.

(** ** Properties kept by monadic code *)

Section Preservation.
(** [R s s'] relates the store before a call to the store after it. *)
Variable R : store -> store -> Prop.
Hypothesis R_refl : forall s, R s s.
Hypothesis R_trans : forall s1 s2 s3, R s1 s2 -> R s2 s3 -> R s1 s3.

Lemma at_ret {A} (a : A) s : preserves_at R (ret a) s.
Proof. apply R_refl. Qed.

Lemma at_throw {A} (e : error) s : preserves_at R (throw e : M A) s.
Proof. apply R_refl. Qed.

Lemma at_modify (f : store -> store) s : R s (f s) -> preserves_at R (modify f) s.
Proof. done. Qed.

Lemma at_bind {A B} (m : M A) (k : A -> M B) s :
  preserves_at R m s ->
  (forall a s', m s = Returned a s' -> preserves_at R (k a) s') ->
  preserves_at R (bind m k) s.
Proof.
  unfold preserves_at, bind. intros Hm Hk.
  destruct (m s) as [a s'|e s']; simpl in *; [|done].
  eapply R_trans; [exact Hm|by apply Hk].
Qed.

(** The continuation of [get] runs on the store that was read. *)
Lemma at_get_bind {B} (k : store -> M B) s :
  preserves_at R (k s) s -> preserves_at R (bind get k) s.
Proof. done. Qed.

Lemma at_modify_bind {B} (f : store -> store) (k : unit -> M B) s :
  R s (f s) -> preserves_at R (k tt) (f s) -> preserves_at R (bind (modify f) k) s.
Proof. unfold preserves_at, bind, modify. intros H1 H2. eapply R_trans; eauto. Qed.

Lemma at_when (b : bool) (m : M unit) s :
  (b = true -> preserves_at R m s) -> preserves_at R (when b m) s.
Proof. destruct b; [auto|]. intros _. apply at_ret. Qed.

Lemma at_forEach {A} (l : list A) (body : A -> M unit) s :
  (forall x, preserves R (body x)) -> preserves_at R (forEach l body) s.
Proof.
  intros H. revert s. induction l as [|x l IH]; intros s; simpl; [apply at_ret|].
  apply at_bind; [apply H|]. intros _ s' _. apply IH.
Qed.
End Preservation.

(** One step through monadic code, for a goal [preserves_at R m s]; what is
    left are the store updates themselves.  [Hr] and [Ht] prove that [R] is
    reflexive and transitive. *)
Ltac frame_step Hr Ht :=
  match goal with
  | |- preserves _ _ => intros ?
  | |- preserves_at _ (bind get _) _ => apply at_get_bind
  | |- preserves_at _ (bind (modify _) _) _ => apply (at_modify_bind _ Ht)
  | |- preserves_at _ (bind _ _) _ => apply (at_bind _ Ht); [| intros ? ? ?]
  | |- preserves_at _ (ret _) _ => apply (at_ret _ Hr)
  | |- preserves_at _ (throw _) _ => apply (at_throw _ Hr)
  | |- preserves_at _ (when _ _) _ => apply (at_when _ Hr); intros ?
  | |- preserves_at _ (forEach _ _) _ => apply (at_forEach _ Hr Ht); intros ?
  | |- preserves_at _ (modify _) _ => apply at_modify
  | |- preserves_at _ (if ?b then _ else _) _ => destruct b eqn:?
  | |- preserves_at _ (match ?x with _ => _ end) _ => destruct x eqn:?
  end.

Ltac frame Hr Ht := unfold emit, listen; cbv zeta; repeat frame_step Hr Ht.

(** ** unapplyIndices *)

(** The search of [unapplyIndices] never finds anything, so the method
    leaves every index entry as it is. *)
Lemma unapplyIndices_same (num : Z) (s : store) : unapplyIndices num s = s.
Proof.
  unfold unapplyIndices.
  assert (E : forall buckets : list bucket,
             findIndex (fun b => bucket_is_number b num) buckets = -1).
  { intros buckets. apply findIndex_from_none. done. }
  transitivity (set_index (_index s) s); [|apply set_index_same].
  f_equal. transitivity (id <$> _index s); [|apply map_fmap_id].
  apply map_fmap_ext. intros field buckets _. by rewrite E.
Qed.

(** C4 (the code departs from the claim): in the store indexed on [lname],
    positions 0 and 1 sit in the bucket of "Doe"; after [unapplyIndices(0)]
    position 0 is still in that bucket. *)
Theorem unapplyIndices_keeps_position :
  _index (the_store indexed_lname) !! "lname"
    = Some [[VStr "Doe"; VNum 0; VNum 1]; [VStr "Vaughn"; VNum 2]] /\
  _index (unapplyIndices 0 (the_store indexed_lname)) !! "lname"
    = Some [[VStr "Doe"; VNum 0; VNum 1]; [VStr "Vaughn"; VNum 2]].
Proof. split; vm_compute; reflexivity. Qed.

(** ** find and the filters *)

(** C2 (the code departs from the claim): with a registered filter that
    rejects every record, [records] is empty, yet [find()] with
    [ignoreFilters] unset returns all three stored records. *)
Theorem find_returns_rejected_records :
  let s := final (addFilter reject_all (the_store indexed_lname)) in
  records people s = [] /\
  returned (find people QAbsent false s)
    = Some (FArray [Some john_doe; Some jane_doe; Some jane_vaughn]).
Proof. split; vm_compute; reflexivity. Qed.

(** The [ignoreFilters] argument makes no difference to what [find] does. *)
Lemma find_ignoreFilters_irrelevant (h : heap) (q : query) (s : store) :
  find h q false s = find h q true s.
Proof.
  unfold find, bind, get. destruct (Nat.eqb (length (_data s)) 0); [done|].
  destruct q; reflexivity.
Qed.

(** C5 (the code departs from the claim): with [lname] and [fname] both
    indexed, the query [{lname: 'Doe', fname: 'Jane'}] collects position 1
    from both indexes and returns Jane Doe twice. *)
Theorem find_object_repeats_record :
  returned (find people (QObject [("lname", VStr "Doe"); ("fname", VStr "Jane")]) false
              (the_store indexed_names))
    = Some (FArray [Some jane_doe; Some jane_doe]).
Proof. vm_compute; reflexivity. Qed.

(** ** remove at a position outside the array *)

(** C3 (as stated, refuted): [remove(5)] on a store of three records does
    not throw; it returns. *)
Lemma remove_beyond_end_returns :
  returned (remove people (Position 5) false (the_store indexed_lname)) = Some tt.
Proof. vm_compute; reflexivity. Qed.

(** C3 (amended): a negative position makes [remove] throw the not-found
    error, a position at or past the record count makes it return normally;
    in both cases the store, and with it the records, the created array and
    the deleted array, is exactly what it was. *)
Theorem remove_out_of_range (h : heap) (s : store) (n : Z) (suppressEvents : bool) :
  (n < 0 -> remove h (Position n) suppressEvents s = Thrown RecordNotFound s) /\
  (Z.of_nat (length (_data s)) <= n ->
   remove h (Position n) suppressEvents s = Returned tt s).
Proof.
  unfold remove, bind, get, throw. cbn [remove_num]. split; intros H.
  - destruct (Z.ltb_spec n 0); [done|lia].
  - destruct (Z.ltb_spec n 0); [lia|].
    rewrite splice1_beyond by done. unfold modify, ret. by rewrite set_data_same.
Qed.

(** Positions -1 and 3 in the store of three people. *)
Lemma remove_out_of_range_witness :
  remove people (Position (-1)) false (the_store indexed_lname)
    = Thrown RecordNotFound (the_store indexed_lname) /\
  remove people (Position 3) false (the_store indexed_lname)
    = Returned tt (the_store indexed_lname).
Proof.
  destruct (remove_out_of_range people (the_store indexed_lname) (-1) false) as [H1 _].
  destruct (remove_out_of_range people (the_store indexed_lname) 3 false) as [_ H2].
  split; [apply H1; lia | apply H2; vm_compute; discriminate].
Defined.

(** ** removeFilter *)

(** C9: when the filter list is not empty and [fn] is not in it,
    [removeFilter(fn)] takes the last (most recently added) filter off the
    list and, unless events are suppressed, emits 'filter.delete' for it. *)
Theorem removeFilter_unregistered (fn : filter) (suppressEvents : bool) (s : store) :
  _filters s <> [] ->
  (forall g, In g (_filters s) -> fid g <> fid fn) ->
  exists earlier recent,
    _filters s = earlier ++ [recent] /\
    let s' := final (removeFilter (ByFunction fn) suppressEvents s) in
    _filters s' = earlier /\
    emitted s' = emitted s ++ (if suppressEvents then [] else [FilterDelete recent]).
Proof.
  intros Hne Hnot.
  destruct (exists_last Hne) as (earlier & recent & E).
  exists earlier, recent. split; [done|].
  unfold removeFilter, bind, get. cbv zeta.
  assert (Hi : findIndex (fun g => filter_eqb g fn) (_filters s) = -1).
  { apply findIndex_from_none. intros g Hg. apply Nat.eqb_neq. by apply Hnot. }
  rewrite Hi, E, splice1_last. unfold modify. simpl.
  destruct suppressEvents; simpl; [by rewrite app_nil_r|done].
Qed.

(** One registered filter, and the removal of another function. *)
Lemma removeFilter_unregistered_witness :
  let s := final (addFilter accept_all (the_store indexed_lname)) in
  let s' := final (removeFilter (ByFunction reject_all) false s) in
  _filters s' = [] /\ emitted s' = emitted s ++ [FilterDelete accept_all].
Proof.
  destruct (removeFilter_unregistered reject_all false
              (final (addFilter accept_all (the_store indexed_lname))))
    as (earlier & recent & E & H1 & H2).
  - vm_compute. discriminate.
  - intros g [<-|[]]. vm_compute. discriminate.
  - change ([] ++ [accept_all] = earlier ++ [recent]) in E.
    apply app_inj_tail in E as [<- <-]. split; [exact H1 | exact H2].
Defined.

(** ** sort *)

Lemma applyIndices_data h rec num s : _data (applyIndices h rec num s) = _data s.
Proof. done. Qed.

Lemma reindex_from_data h l i s : _data (reindex_from h l i s) = _data s.
Proof.
  revert i s. induction l as [|rec l IH]; intros i s; simpl; [done|].
  by rewrite IH, applyIndices_data.
Qed.

Lemma reindex_data h s : _data (reindex h s) = _data s.
Proof. unfold reindex. by rewrite reindex_from_data. Qed.

(** C6 (as stated, refuted): sorting by [{age: 'asc'}] a store that holds a
    record with an [age] followed by one without moves the record that is
    missing the key to the front. *)
Lemma sort_puts_missing_key_first :
  _data (the_store guest_list) = [with_age; without_age] /\
  compare_fields prim_lt guests [("age", DString "asc")] with_age without_age = 1 /\
  _data (final (sort prim_lt guests by_age (the_store guest_list)))
    = [without_age; with_age].
Proof. repeat split; vm_compute; reflexivity. Qed.

Section SortingFacts.
Variable js_lt : value -> value -> bool.

(** C6 (amended): the comparator built from a field map looks at the keys
    in map order.  When one record has the first key and the other does
    not, the one that has it sorts after the one missing it.  When both
    have the key or both lack it and the values are equal, the comparison
    is that of the remaining keys.  When the values differ and the key
    holds a comparator function, the result is that function's. *)
Theorem compare_fields_first_key (h : heap) (key : string) (dir : direction)
    (rest : list (string * direction)) (a b : ref) :
  let compare := compare_fields js_lt h ((key, dir) :: rest) in
  (hasOwnProperty h a key = true -> hasOwnProperty h b key = false ->
     compare a b = 1 /\ compare b a = -1 /\
     array_sort compare [a; b] = [b; a] /\
     array_sort compare [b; a] = [b; a]) /\
  (hasOwnProperty h a key = hasOwnProperty h b key ->
   prop h a key = prop h b key ->
     compare a b = compare_fields js_lt h rest a b) /\
  (hasOwnProperty h a key = hasOwnProperty h b key ->
   prop h a key <> prop h b key ->
     forall c, dir = DFunction c -> compare a b = c h a b).
Proof.
  cbv zeta. split; [|split].
  - intros Ha Hb.
    assert (E1 : compare_fields js_lt h ((key, dir) :: rest) a b = 1)
      by (simpl; by rewrite Ha, Hb).
    assert (E2 : compare_fields js_lt h ((key, dir) :: rest) b a = -1)
      by (simpl; by rewrite Ha, Hb).
    repeat split; [done|done| |].
    + unfold array_sort. cbn [fold_right sort_insert]. by rewrite E1.
    + unfold array_sort. cbn [fold_right sort_insert]. by rewrite E2.
  - intros Hh Hp. simpl. rewrite Hh, Hp, strict_eq_refl.
    by destruct (hasOwnProperty h b key).
  - intros Hh Hp c ->. simpl. rewrite Hh.
    apply strict_eq_false in Hp. rewrite Hp.
    by destruct (hasOwnProperty h b key).
Qed.

(** C10: with at least one registered filter, [sort] leaves [_data] in
    the order it had; with none, [_data] becomes the sorted array. *)
Theorem sort_reorders_only_without_filters (h : heap) (fn : sorter) (s : store) :
  (_filters s <> [] -> _data (final (sort js_lt h fn s)) = _data s) /\
  (_filters s = [] ->
   _data (final (sort js_lt h fn s)) =
     match fn with
     | SFunction c => array_sort (c h) (_data s)
     | SObject m => array_sort (compare_fields js_lt h m) (_data s)
     | SNull | SOther => _data s
     end).
Proof.
  unfold sort, sort_records, applyFilters_result, bind, get, modify, ret, throw.
  split; intros Hf.
  - destruct fn; simpl; try done;
      destruct (_filters s); try done; simpl; by rewrite reindex_data.
  - destruct fn; simpl; rewrite ?Hf; simpl; rewrite ?reindex_data; done.
Qed.
End SortingFacts.

(** The two guests compared on [age] and on [name]. *)
Lemma compare_fields_first_key_witness :
  compare_fields prim_lt guests [("age", DString "asc")] with_age without_age = 1 /\
  array_sort (compare_fields prim_lt guests [("age", DString "asc")])
    [with_age; without_age] = [without_age; with_age] /\
  compare_fields prim_lt guests [("name", DString "asc"); ("age", DString "asc")]
    with_age with_age = compare_fields prim_lt guests [("age", DString "asc")] with_age with_age /\
  compare_fields prim_lt guests [("name", DFunction (fun _ _ _ => 7))]
    with_age without_age = 7.
Proof.
  destruct (compare_fields_first_key prim_lt guests "age" (DString "asc") []
              with_age without_age) as (H1 & _ & _).
  destruct (compare_fields_first_key prim_lt guests "name" (DString "asc")
              [("age", DString "asc")] with_age with_age) as (_ & H2 & _).
  destruct (compare_fields_first_key prim_lt guests "name" (DFunction (fun _ _ _ => 7)) []
              with_age without_age) as (_ & _ & H3).
  destruct H1 as (E1 & _ & E2 & _); [reflexivity|reflexivity|].
  split; [exact E1|]. split; [exact E2|]. split.
  - apply H2; reflexivity.
  - apply (H3 ltac:(reflexivity) ltac:(vm_compute; discriminate) _ eq_refl).
Defined.

(** The guest list sorted by age, with a filter registered and without. *)
Lemma sort_reorders_only_without_filters_witness :
  _data (final (sort prim_lt guests by_age
                  (final (addFilter accept_all (the_store guest_list)))))
    = [with_age; without_age] /\
  _data (final (sort prim_lt guests by_age (the_store guest_list)))
    = [without_age; with_age].
Proof.
  destruct (sort_reorders_only_without_filters prim_lt guests by_age
              (final (addFilter accept_all (the_store guest_list)))) as [H1 _].
  destruct (sort_reorders_only_without_filters prim_lt guests by_age
              (the_store guest_list)) as [_ H2].
  split.
  - rewrite H1; [reflexivity | vm_compute; discriminate].
  - rewrite H2; reflexivity.
Defined.

(** ** The index after reindex *)

Lemma applyIndices_lookup h rec num s field :
  _index (applyIndices h rec num s) !! field =
    (fun values => if hasOwnProperty h rec field
                   then apply_value (prop h rec field) num values
                   else values) <$> (_index s !! field).
Proof.
  unfold applyIndices. simpl. rewrite map_lookup_imap.
  by destruct (_index s !! field).
Qed.

Lemma bucket_matches_cons v x b : bucket_matches v (x :: b) = strict_eq x v.
Proof. done. Qed.

Lemma bucket_matches_push v b num :
  b <> [] -> bucket_matches v (b ++ [VNum num]) = bucket_matches v b.
Proof. destruct b; [done|]. intros _. done. Qed.

(** Pushing a position for value [x] extends the table at [x] only. *)
Lemma apply_value_tabulates P x num buckets :
  tabulates P buckets ->
  tabulates (fun v => P v ++ (if strict_eq v x then [num] else [])) (apply_value x num buckets).
Proof.
  intros [Hne Htab]. split.
  - clear Htab. induction Hne as [|b bs Hb Hbs IH]; simpl.
    + by repeat constructor.
    + destruct (strict_eq (bucket_head b) x).
      * constructor; [|done]. by destruct b.
      * by constructor.
  - intros v. specialize (Htab v).
    destruct (strict_eq v x) eqn:Evx.
    + apply strict_eq_true in Evx as ->.
      revert Htab. generalize (P x) as ps. clear P.
      induction Hne as [|b bs Hb Hbs IH]; intros ps Htab; simpl in *.
      * destruct ps; [|done]. cbn [List.filter app].
        by rewrite bucket_matches_cons, strict_eq_refl.
      * destruct b as [|y b]; [done|]. rewrite bucket_matches_cons in Htab.
        simpl (bucket_head _).
        destruct (strict_eq y x) eqn:Eyx.
        -- cbn [List.filter]. change ((y :: b) ++ [VNum num]) with (y :: (b ++ [VNum num])).
           rewrite bucket_matches_cons, Eyx.
           apply strict_eq_true in Eyx as ->.
           destruct ps as [|p ps]; [done|].
           injection Htab as Hb' Hrest. rewrite Hrest.
           simpl. rewrite Hb', map_app. done.
        -- cbn [List.filter]. rewrite bucket_matches_cons, Eyx. exact (IH ps Htab).
    + rewrite app_nil_r.
      transitivity (List.filter (bucket_matches v) buckets); [|done].
      clear Htab. induction Hne as [|b bs Hb Hbs IH]; simpl.
      * rewrite bucket_matches_cons. rewrite strict_eq_false in Evx.
        destruct (strict_eq x v) eqn:E; [|done].
        apply strict_eq_true in E. congruence.
      * destruct (strict_eq (bucket_head b) x) eqn:Ebx.
        -- destruct b as [|y b]; [done|]. simpl in Ebx.
           apply strict_eq_true in Ebx as ->.
           cbn [List.filter]. rewrite bucket_matches_push by done.
           rewrite bucket_matches_cons.
           destruct (strict_eq x v) eqn:E; [|done].
           apply strict_eq_true in E. apply strict_eq_false in Evx. congruence.
        -- cbn [List.filter]. by rewrite IH.
Qed.

Lemma tabulates_ext P Q buckets :
  (forall v, P v = Q v) -> tabulates P buckets -> tabulates Q buckets.
Proof. intros E [H1 H2]. split; [done|]. intros v. by rewrite <- E. Qed.

Lemma has_value_prop h r field v :
  has_value h r field v = hasOwnProperty h r field && strict_eq (prop h r field) v.
Proof.
  unfold has_value, hasOwnProperty, prop.
  destruct (fields (h r) !! field); done.
Qed.

(** Applying the records of [l] at the offsets [i], [i+1], ... extends the
    table of an indexed field by their positions. *)
Lemma reindex_from_tabulates h field l : forall i s P buckets,
  _index s !! field = Some buckets ->
  tabulates P buckets ->
  exists buckets',
    _index (reindex_from h l i s) !! field = Some buckets' /\
    tabulates (fun v => P v ++ positions h field v l i) buckets'.
Proof.
  induction l as [|rec l IH]; intros i s P buckets Hs Htab; simpl.
  - exists buckets. split; [done|].
    eapply tabulates_ext; [|exact Htab]. intros v. by rewrite app_nil_r.
  - assert (Esym : forall v,
             strict_eq v (prop h rec field) = strict_eq (prop h rec field) v).
    { intros v. destruct (strict_eq v (prop h rec field)) eqn:E1,
                         (strict_eq (prop h rec field) v) eqn:E2; try done.
      - apply strict_eq_true in E1. apply strict_eq_false in E2. congruence.
      - apply strict_eq_true in E2. apply strict_eq_false in E1. congruence. }
    destruct (IH (i + 1) (applyIndices h rec i s)
                (fun v => P v ++ (if has_value h rec field v then [i] else []))
                (if hasOwnProperty h rec field
                 then apply_value (prop h rec field) i buckets else buckets))
      as (buckets' & Hb' & Htab').
    + rewrite applyIndices_lookup, Hs. reflexivity.
    + destruct (hasOwnProperty h rec field) eqn:Eh.
      * eapply tabulates_ext; [|apply apply_value_tabulates; exact Htab].
        intros v. cbv beta. by rewrite has_value_prop, Eh, Esym.
      * eapply tabulates_ext; [|exact Htab]. intros v.
        rewrite has_value_prop, Eh. simpl. by rewrite app_nil_r.
    + exists buckets'. split; [done|].
      eapply tabulates_ext; [|exact Htab']. intros v. cbv beta.
      by rewrite <- app_assoc.
Qed.

(** On an entry that tabulates [P], the lookup of [v] returns [P v]. *)
Lemma getIndices_tabulates P field v s buckets :
  _index s !! field = Some buckets ->
  tabulates P buckets ->
  returned (getIndices field v s) = Some (Some (map VNum (P v))).
Proof.
  intros Hs [_ Htab]. unfold getIndices. rewrite Hs, (Htab v).
  by destruct (P v).
Qed.

Lemma positions_In h field v l : forall i p,
  In p (positions h field v l i) <->
  exists k r, l !! k = Some r /\ p = i + Z.of_nat k /\ has_value h r field v = true.
Proof.
  induction l as [|r l IH]; intros i p; simpl.
  - split; [done|]. by intros (k & r & H & _).
  - rewrite in_app_iff, IH. split.
    + intros [H|(k & r' & Hk & -> & Hv)].
      * destruct (has_value h r field v) eqn:E; [|done].
        destruct H as [<-|[]]. exists 0%nat, r. split; [done|]. split; [lia|done].
      * exists (S k), r'. split; [done|]. split; [lia|done].
    + intros (k & r' & Hk & -> & Hv). destruct k as [|k]; simpl in Hk.
      * injection Hk as ->. left. rewrite Hv. left. lia.
      * right. exists k, r'. split; [done|]. split; [lia|done].
Qed.

Lemma positions_NoDup h field v l : forall i, NoDup (positions h field v l i).
Proof.
  induction l as [|r l IH]; intros i; simpl; [constructor|].
  destruct (has_value h r field v); simpl; [|apply IH].
  constructor; [|apply IH].
  rewrite list_elem_of_In, positions_In. intros (k & r' & _ & E & _). lia.
Qed.

(** *** Indexed fields stay indexed *)

Lemma keeps_index_refl field s : keeps_index field s s.
Proof. by intros H. Qed.

Lemma keeps_index_trans field s1 s2 s3 :
  keeps_index field s1 s2 -> keeps_index field s2 s3 -> keeps_index field s1 s3.
Proof. unfold keeps_index. auto. Qed.

Lemma keeps_index_applyIndices field h rec num s :
  keeps_index field s (applyIndices h rec num s).
Proof.
  intros [buckets H]. rewrite applyIndices_lookup, H. by eexists.
Qed.

Lemma keeps_index_updateIndice field f old new num s :
  keeps_index field s (updateIndice f old new num s).
Proof.
  intros H. unfold updateIndice.
  destruct (_index s !! f) eqn:E; [|done].
  destruct (strict_eq old new); [done|]. simpl.
  destruct (decide (f = field)) as [->|Hne].
  - rewrite lookup_insert_eq. by eexists.
  - by rewrite lookup_insert_ne.
Qed.

Ltac frame_index field :=
  frame (keeps_index_refl field) (keeps_index_trans field);
  try (by intros ?).

Lemma add_keeps_index field h data suppressEvent :
  preserves (keeps_index field) (add h data suppressEvent).
Proof.
  unfold add, add_insert. frame_index field; apply keeps_index_applyIndices.
Qed.

Lemma remove_keeps_index field h data suppressEvents :
  preserves (keeps_index field) (remove h data suppressEvents).
Proof.
  unfold remove. frame_index field. rewrite unapplyIndices_same. by intros ?.
Qed.

Lemma notify_update_keeps_index field r f old new :
  preserves (keeps_index field) (notify r (on_field_update r f old new)).
Proof.
  unfold notify, on_field_update. frame_index field.
  apply keeps_index_updateIndice.
Qed.

Lemma notify_delete_keeps_index field r f old :
  preserves (keeps_index field) (notify r (on_field_delete r f old)).
Proof.
  unfold notify, on_field_delete. frame_index field.
  apply keeps_index_updateIndice.
Qed.

Lemma step_keeps_index field o w :
  add_remove_or_mutation o = true ->
  keeps_index field (the_store w) (the_store (step o w)).
Proof.
  destruct o; try discriminate; intros _; simpl.
  - apply add_keeps_index.
  - apply remove_keeps_index.
  - apply notify_update_keeps_index.
  - apply notify_delete_keeps_index.
Qed.

Lemma run_keeps_index field ops : forall w,
  forallb add_remove_or_mutation ops = true ->
  keeps_index field (the_store w) (the_store (run ops w)).
Proof.
  induction ops as [|o ops IH]; intros w H; simpl; [apply keeps_index_refl|].
  apply andb_prop in H as [Ho Hops].
  eapply keeps_index_trans; [by apply step_keeps_index|by apply IH].
Qed.

(** C1: take a store with an index on [field], apply any sequence of adds,
    removes and record field changes, then [reindex].  The lookup
    [getIndices(field, v)] then returns positions without repetition, and a
    position is returned exactly when the record at that position of the
    record sequence currently has the value [v] for [field]. *)
Theorem getIndices_after_reindex (ops : list op) (w : world) (field : string) (v : value) :
  forallb add_remove_or_mutation ops = true ->
  is_Some (_index (the_store w) !! field) ->
  let w' := run ops w in
  exists ps : list Z,
    returned (getIndices field v (reindex (objects w') (the_store w')))
      = Some (Some (map VNum ps)) /\
    NoDup ps /\
    forall p, In p ps <->
      0 <= p /\
      exists r, _data (the_store w') !! Z.to_nat p = Some r /\
                fields (objects w' r) !! field = Some v.
Proof.
  intros Hops Hidx w'.
  apply (run_keeps_index field ops w Hops) in Hidx. fold w' in Hidx.
  destruct Hidx as [old Hold].
  set (h := objects w'). set (s := the_store w') in *.
  destruct (reindex_from_tabulates h field (_data s) 0 (clearIndices s) (fun _ => []) [])
    as (buckets & Hb & Htab).
  { unfold clearIndices. simpl. by rewrite lookup_fmap, Hold. }
  { split; [constructor|done]. }
  exists (positions h field v (_data s) 0). split; [|split].
  - apply (getIndices_tabulates (fun v => [] ++ positions h field v (_data s) 0)
             field v (reindex h s) buckets); [exact Hb|exact Htab].
  - apply positions_NoDup.
  - intros p. rewrite positions_In. split.
    + intros (k & r & Hk & -> & Hv). split; [lia|]. exists r.
      rewrite Z.add_0_l, Nat2Z.id. split; [done|].
      unfold has_value in Hv. destruct (fields (h r) !! field); [|done].
      apply strict_eq_true in Hv. by subst.
    + intros (Hp & r & Hr & Hv). exists (Z.to_nat p), r.
      split; [done|]. split; [lia|].
      unfold has_value. rewrite Hv. apply strict_eq_refl.
Qed.

(** Three people added, the first removed, then a reindex. *)
Lemma getIndices_after_reindex_witness :
  let w' := run (add_people ++ [OpRemove (Position 0) false]) people_world in
  exists ps : list Z,
    returned (getIndices "lname" (VStr "Doe") (reindex (objects w') (the_store w')))
      = Some (Some (map VNum ps)) /\
    NoDup ps /\
    forall p, In p ps <->
      0 <= p /\
      exists r, _data (the_store w') !! Z.to_nat p = Some r /\
                fields (objects w' r) !! "lname" = Some (VStr "Doe").
Proof.
  apply (getIndices_after_reindex (add_people ++ [OpRemove (Position 0) false])
           people_world "lname" (VStr "Doe")).
  - reflexivity.
  - exists []. vm_compute. reflexivity.
Defined.

(** ** find without a match *)














(** ** Change tracking *)

Lemma same_tracking_refl s : same_tracking s s.
Proof. done. Qed.

Lemma same_tracking_trans s1 s2 s3 :
  same_tracking s1 s2 -> same_tracking s2 s3 -> same_tracking s1 s3.
Proof. unfold same_tracking. intros (?&?&?) (?&?&?). repeat split; congruence. Qed.

Lemma created_NoDup_refl s : created_NoDup s s.
Proof. by intros H. Qed.

Lemma created_NoDup_trans s1 s2 s3 :
  created_NoDup s1 s2 -> created_NoDup s2 s3 -> created_NoDup s1 s3.
Proof. unfold created_NoDup. auto. Qed.

Lemma tracks_refl r s : tracks r s s.
Proof. by intros H. Qed.

Lemma tracks_trans r s1 s2 s3 : tracks r s1 s2 -> tracks r s2 s3 -> tracks r s1 s3.
Proof.
  intros H12 H23 H1. destruct (H12 H1) as (H2 & Hc & Hd).
  destruct (H23 H2) as (H3 & Hc' & Hd'). repeat split; [done|auto|..]; tauto.
Qed.

Lemma same_tracking_created_NoDup s s' : same_tracking s s' -> created_NoDup s s'.
Proof. intros (E & _ & _) H. by rewrite E. Qed.

Lemma same_tracking_tracks r s s' : same_tracking s s' -> tracks r s s'.
Proof. intros (Ec & Ed & El) H. rewrite Ec, Ed, El. done. Qed.

Ltac frame_tracking :=
  frame same_tracking_refl same_tracking_trans; try done.

(** *** Operations that do not touch change tracking *)

Lemma getIndices_tracking field v : preserves same_tracking (getIndices field v).
Proof.
  intros s. unfold preserves_at, getIndices.
  destruct (_index s !! field); [|done].
  by destruct (List.filter _ _) as [|? [|? ?]].
Qed.

Lemma collect_tracking q keys : forall acc, preserves same_tracking (collect q keys acc).
Proof.
  induction keys as [|field keys IH]; intros acc s; simpl.
  - done.
  - frame_tracking; [apply getIndices_tracking|apply IH|apply IH].
Qed.

Lemma find_tracking h q ignoreFilters : preserves same_tracking (find h q ignoreFilters).
Proof.
  unfold find, find_object. frame_tracking;
    first [apply getIndices_tracking | apply collect_tracking].
Qed.

Lemma updateIndice_tracking f old new num s :
  same_tracking s (updateIndice f old new num s).
Proof.
  unfold updateIndice. destruct (_index s !! f); [|done].
  by destruct (strict_eq old new).
Qed.

Lemma notify_update_tracking r f old new :
  preserves same_tracking (notify r (on_field_update r f old new)).
Proof.
  unfold notify, on_field_update. frame_tracking. apply updateIndice_tracking.
Qed.

Lemma notify_delete_tracking r f old :
  preserves same_tracking (notify r (on_field_delete r f old)).
Proof.
  unfold notify, on_field_delete. frame_tracking. apply updateIndice_tracking.
Qed.

Lemma clear_tracking : preserves same_tracking clear.
Proof. unfold clear. frame_tracking. Qed.

Lemma addFilter_tracking fn : preserves same_tracking (addFilter fn).
Proof. unfold addFilter. frame_tracking. Qed.

Lemma removeFilter_tracking fn suppressEvents :
  preserves same_tracking (removeFilter fn suppressEvents).
Proof. unfold removeFilter. frame_tracking. Qed.

Lemma clearFilters_tracking suppressEvents :
  preserves same_tracking (clearFilters suppressEvents).
Proof. unfold clearFilters. frame_tracking. Qed.

Lemma createIndex_tracking field suppressEvents :
  preserves same_tracking (createIndex field suppressEvents).
Proof. unfold createIndex. frame_tracking. Qed.

Lemma deleteIndex_tracking field suppressEvents :
  preserves same_tracking (deleteIndex field suppressEvents).
Proof. unfold deleteIndex. frame_tracking. Qed.

Lemma applyIndices_tracking h rec num s : same_tracking s (applyIndices h rec num s).
Proof. done. Qed.

Lemma reindex_from_tracking h l : forall i s, same_tracking s (reindex_from h l i s).
Proof.
  induction l as [|rec l IH]; intros i s; simpl; [done|].
  eapply same_tracking_trans; [apply (applyIndices_tracking h rec i)|apply IH].
Qed.

Lemma reindex_tracking h s : same_tracking s (reindex h s).
Proof.
  unfold reindex.
  eapply same_tracking_trans; [|apply reindex_from_tracking]. done.
Qed.

(** *** add, remove and the bulk loads *)

(** Reading a field of an updated store. *)
Ltac fields_of_update :=
  cbn [_data _filters _index _created _deleted _loading allowDuplicates errorOnDuplicate
       listeners emitted set_data set_filters set_index set_created set_deleted
       set_loading add_listener log_event applyIndices] in *.

Lemma indexOf_ref_neg r l : indexOf_ref r l < 0 <-> ~ In r l.
Proof.
  unfold indexOf_ref. rewrite findIndex_neg_iff. split.
  - intros H Hin. specialize (H r Hin). unfold ref_eqb in H.
    by rewrite Pos.eqb_refl in H.
  - intros H x Hx. unfold ref_eqb. apply Pos.eqb_neq. by intros ->.
Qed.

Lemma indexOf_ref_found r l :
  0 <= indexOf_ref r l -> l !! Z.to_nat (indexOf_ref r l) = Some r.
Proof.
  intros H. destruct (findIndex_from_found (fun x => ref_eqb x r) l 0) as (x & Hx & E);
    [lia|done|].
  apply Pos.eqb_eq in E as ->. by rewrite Z.sub_0_r in Hx.
Qed.

(** What [splice(start, 1)] removed sat at [start]. *)
Lemma splice1_removed {A} (start : Z) (l : list A) x xs rest :
  0 <= start -> splice1 start l = (x :: xs, rest) ->
  l !! Z.to_nat start = Some x /\ xs = [] /\
  rest = delete (Z.to_nat start) l.
Proof.
  intros H0. unfold splice1. destruct (Z.ltb_spec start 0); [lia|].
  intros [= E1 E2].
  destruct (Z.le_gt_cases (Z.of_nat (length l)) start) as [Hge|Hlt].
  - rewrite Z.min_r, Nat2Z.id, drop_all in E1 by lia. done.
  - rewrite Z.min_l in E1, E2 by lia.
    destruct (lookup_lt_is_Some_2 l (Z.to_nat start)) as [y Hy]; [lia|].
    rewrite (drop_S _ _ _ Hy) in E1. injection E1 as -> <-.
    by rewrite delete_take_drop.
Qed.

Lemma delete_NoDup {A} (l : list A) i : NoDup l -> NoDup (delete i l).
Proof. intros H. eapply sublist_NoDup; [done|apply sublist_delete]. Qed.

Lemma delete_In_other {A} (l : list A) i x r :
  l !! i = Some x -> x <> r -> In r l -> In r (delete i l).
Proof.
  intros Hi Hne Hr. rewrite <- (take_drop_middle l i x Hi) in Hr.
  rewrite delete_take_drop.
  apply in_app_iff in Hr as [Hr|[Hr|Hr]]; apply in_app_iff; [by left|done|by right].
Qed.

Lemma delete_not_In {A} (l : list A) i r :
  NoDup l -> l !! i = Some r -> ~ In r (delete i l).
Proof.
  intros Hnd Hi Hin. rewrite delete_take_drop in Hin.
  rewrite <- (take_drop_middle l i r Hi) in Hnd.
  apply NoDup_app in Hnd as (_ & Hdis & Hnd).
  apply NoDup_cons in Hnd as [Hnot _].
  apply in_app_iff in Hin as [Hin|Hin].
  - apply (Hdis r); [by apply list_elem_of_In|by left].
  - apply Hnot. by apply list_elem_of_In.
Qed.

Lemma splice1_at {A} (i : Z) (l : list A) x :
  0 <= i -> l !! Z.to_nat i = Some x -> splice1 i l = ([x], delete (Z.to_nat i) l).
Proof.
  intros H0 Hi. remember (Z.to_nat i) as n eqn:En.
  assert (E : i = Z.of_nat n) by lia. subst i.
  by rewrite (splice1_inside _ _ x Hi), delete_take_drop.
Qed.

Lemma splice1_snd_delete {A} (i : Z) (l : list A) x :
  0 <= i -> l !! Z.to_nat i = Some x -> snd (splice1 i l) = delete (Z.to_nat i) l.
Proof. intros H0 Hi. by rewrite (splice1_at _ _ x H0 Hi). Qed.

Lemma add_created_NoDup h data suppressEvent :
  preserves created_NoDup (add h data suppressEvent).
Proof.
  unfold add, add_insert.
  frame created_NoDup_refl created_NoDup_trans; try (by intros ?).
  all: fields_of_update; intros Hnd; fields_of_update;
    match goal with
    | H : _ && _ = true |- _ => apply andb_prop in H as [_ H]; apply Z.ltb_lt in H
    end;
    apply NoDup_app; repeat split; [done| |apply NoDup_singleton];
    intros x Hx [->|[]%elem_of_nil]%elem_of_cons;
    by apply indexOf_ref_neg in H; apply H, list_elem_of_In.
Qed.

Lemma add_tracks r h data suppressEvent : preserves (tracks r) (add h data suppressEvent).
Proof.
  unfold add, add_insert.
  frame (tracks_refl r) (tracks_trans r); try (by intros ?).
  all: fields_of_update; intros Hl; fields_of_update; repeat split; try done;
    intros Hin; apply in_app_iff; by left.
Qed.

Lemma remove_created_NoDup h data suppressEvents :
  preserves created_NoDup (remove h data suppressEvents).
Proof.
  unfold remove.
  frame created_NoDup_refl created_NoDup_trans; try (by intros ?).
  rewrite unapplyIndices_same in *. fields_of_update. intros Hnd. fields_of_update.
  match goal with H : (0 <=? _) = true |- _ => apply Z.leb_le in H; rename H into Hi end.
  rewrite (splice1_snd_delete _ _ _ Hi (indexOf_ref_found _ _ Hi)).
  by apply delete_NoDup.
Qed.

(** A [remove] that takes out another record, or nothing. *)
Lemma remove_tracks r h data suppressEvents s :
  remove_target h data s <> Some r ->
  preserves_at (tracks r) (remove h data suppressEvents) s.
Proof.
  unfold remove, remove_target. cbv zeta. intros Hother.
  frame (tracks_refl r) (tracks_trans r); try (by intros ?).
  all: match goal with H : (remove_num _ _ _ <? 0) = false |- _ =>
         apply Z.ltb_ge in H; rename H into Hnum end;
       match goal with H : splice1 _ _ = _ |- _ =>
         apply splice1_removed in H as (Hat & _ & _); [|done] end;
       assert (Hne : r0 <> r) by congruence.
  - rewrite unapplyIndices_same in *. fields_of_update. intros Hl. fields_of_update.
    match goal with H : (0 <=? _) = true |- _ => apply Z.leb_le in H; rename H into Hi end.
    rewrite (splice1_snd_delete _ _ _ Hi (indexOf_ref_found _ _ Hi)).
    repeat split; try done.
    apply (delete_In_other _ _ r0); [by apply indexOf_ref_found|done].
  - rewrite unapplyIndices_same in *. fields_of_update. intros Hl. fields_of_update.
    repeat split; try done.
    + intros [Hin|[Hin|[]]]%in_app_iff; congruence.
    + intros Hin. apply in_app_iff. by left.
Qed.

Lemma bulk_created_NoDup h ev data : preserves created_NoDup (bulk h ev data).
Proof.
  unfold bulk.
  frame created_NoDup_refl created_NoDup_trans; try (by intros ?).
  - apply add_created_NoDup.
  - intros _. fields_of_update. constructor.
Qed.

Lemma reload_created_NoDup h data : preserves created_NoDup (reload h data).
Proof.
  unfold reload.
  frame created_NoDup_refl created_NoDup_trans.
  - apply same_tracking_created_NoDup, clear_tracking.
  - apply bulk_created_NoDup.
Qed.

(** [_created] never holds a record twice. *)
Lemma step_created_NoDup o w :
  created_NoDup (the_store w) (the_store (step o w)).
Proof.
  destruct o; simpl.
  - apply add_created_NoDup.
  - apply remove_created_NoDup.
  - apply same_tracking_created_NoDup, notify_update_tracking.
  - apply same_tracking_created_NoDup, notify_delete_tracking.
  - apply bulk_created_NoDup.
  - apply reload_created_NoDup.
  - apply same_tracking_created_NoDup, clear_tracking.
  - apply same_tracking_created_NoDup, find_tracking.
  - apply same_tracking_created_NoDup, addFilter_tracking.
  - apply same_tracking_created_NoDup, removeFilter_tracking.
  - apply same_tracking_created_NoDup, clearFilters_tracking.
  - apply same_tracking_created_NoDup, createIndex_tracking.
  - apply same_tracking_created_NoDup, deleteIndex_tracking.
  - apply same_tracking_created_NoDup, reindex_tracking.
Qed.

Lemma run_created_NoDup ops : forall w,
  created_NoDup (the_store w) (the_store (run ops w)).
Proof.
  induction ops as [|o ops IH]; intros w; simpl; [apply created_NoDup_refl|].
  eapply created_NoDup_trans; [apply step_created_NoDup|apply IH].
Qed.

Lemma reachable_created_NoDup w : reachable w -> NoDup (_created (the_store w)).
Proof.
  intros (h & index & ad & ed & ops & ->).
  apply run_created_NoDup. simpl. constructor.
Qed.

(** Operations that are neither a bulk load nor a removal of [r] keep [r]
    where change tracking has it. *)
Lemma step_tracks r o w :
  leaves_alone r [o] w = true -> tracks r (the_store w) (the_store (step o w)).
Proof.
  simpl. rewrite andb_true_r. intros [Hb Hr]%andb_prop.
  destruct o; try discriminate; simpl.
  - apply add_tracks.
  - apply remove_tracks. intros E. rewrite E in Hr. unfold ref_eqb in Hr.
    by rewrite Pos.eqb_refl in Hr.
  - apply same_tracking_tracks, notify_update_tracking.
  - apply same_tracking_tracks, notify_delete_tracking.
  - apply same_tracking_tracks, clear_tracking.
  - apply same_tracking_tracks, find_tracking.
  - apply same_tracking_tracks, addFilter_tracking.
  - apply same_tracking_tracks, removeFilter_tracking.
  - apply same_tracking_tracks, clearFilters_tracking.
  - apply same_tracking_tracks, createIndex_tracking.
  - apply same_tracking_tracks, deleteIndex_tracking.
  - apply same_tracking_tracks, reindex_tracking.
Qed.

Lemma run_tracks r ops : forall w,
  leaves_alone r ops w = true -> tracks r (the_store w) (the_store (run ops w)).
Proof.
  induction ops as [|o ops IH]; intros w H; [apply tracks_refl|].
  simpl in H. apply andb_prop in H as [Ho Hops].
  eapply tracks_trans; [|apply IH, Hops].
  apply step_tracks. simpl. by rewrite Ho.
Qed.

(** Outside bulk mode a record that [add] appends ends up in [_created]. *)
Lemma add_puts_in_created h r suppressEvent s :
  _loading s = false ->
  _data (final (add h (Entity r) suppressEvent s)) = _data s ++ [r] ->
  In r (_created (final (add h (Entity r) suppressEvent s))).
Proof.
  intros Hl.
  assert (Hins : forall s0, _loading s0 = false ->
                   In r (_created (final (add_insert h r suppressEvent s0)))).
  { clear. intros s Hl.
    unfold add_insert, bind, get, listen, modify, when, emit, ret. fields_of_update.
    rewrite Hl. cbn [negb andb].
    destruct (Z.ltb_spec (indexOf_ref r (_created s)) 0) as [Hi|Hi].
    - destruct suppressEvent; simpl; apply in_app_iff; right; by left.
    - assert (Hin : In r (_created s)).
      { destruct (in_dec Pos.eq_dec r (_created s)) as [?|Hn]; [done|].
        apply indexOf_ref_neg in Hn. lia. }
      by destruct suppressEvent. }
  unfold add, bind, get.
  destruct (isDuplicate h r s); [|intros _; by apply Hins].
  unfold emit, modify. fields_of_update.
  destruct (allowDuplicates s); cbn [negb]; [intros _; by apply Hins|].
  destruct (errorOnDuplicate s); simpl; intros E;
    apply (f_equal (@length ref)) in E; rewrite length_app in E; simpl in E; lia.
Qed.

(** Outside bulk mode, removing a record that is in [_created] takes it out
    of [_created] and leaves [_deleted] alone. *)
Lemma remove_created_record h data suppressEvents s r :
  remove_target h data s = Some r ->
  _loading s = false ->
  NoDup (_created s) ->
  In r (_created s) ->
  let s' := final (remove h data suppressEvents s) in
  ~ In r (_created s') /\ _deleted s' = _deleted s.
Proof.
  unfold remove_target. cbv zeta. intros Ht Hl Hnd Hin.
  destruct (Z.ltb_spec (remove_num h data s) 0) as [|Hnum]; [done|].
  assert (Hi : 0 <= indexOf_ref r (_created s)).
  { destruct (Z.lt_ge_cases (indexOf_ref r (_created s)) 0) as [Hneg|]; [|done].
    by apply indexOf_ref_neg in Hneg. }
  unfold remove, bind, get.
  destruct (Z.ltb_spec (remove_num h data s) 0); [lia|].
  rewrite (splice1_at _ _ r Hnum Ht).
  unfold modify, when, emit, ret. rewrite unapplyIndices_same. fields_of_update.
  rewrite Hl. cbn [negb].
  destruct (Z.leb_spec 0 (indexOf_ref r (_created s))); [|lia].
  rewrite (splice1_snd_delete _ _ _ Hi (indexOf_ref_found _ _ Hi)).
  destruct suppressEvents; simpl; (split; [|done]);
    apply delete_not_In; [done|by apply indexOf_ref_found|done|by apply indexOf_ref_found].
Qed.

(** C7 (as stated, refuted): a loaded record is removed, added again and
    removed again, all outside bulk mode and with no bulk load in between.
    The add puts the record back into the store and the last remove takes it
    out; after it the deleted array still holds the record. *)
Lemma readded_record_stays_deleted :
  let before := run [OpLoad [Entity john_doe]; OpRemove (OfRecord john_doe) false]
                    people_world in
  let added := step (OpAdd (Entity john_doe) false) before in
  let after := step (OpRemove (OfRecord john_doe) false) added in
  _loading (the_store before) = false /\
  _data (the_store added) = [john_doe] /\
  _data (the_store after) = [] /\
  _created (the_store after) = [] /\
  _deleted (the_store after) = [john_doe].
Proof. repeat split; vm_compute; reflexivity. Qed.

(** C7 (amended): in a store that is not in bulk mode, and whose created
    array holds no record twice (as in every store reached from a new one,
    [reachable_created_NoDup]), a record is added; then come operations that
    are neither bulk loads nor removals of that record; then a remove takes
    the record out.  After it the created array does not hold the record,
    and the deleted array holds it exactly if it held it before the add. *)
Theorem add_then_remove_net_zero (w : world) (r : ref) (suppressEvent : bool)
    (ops : list op) (data : identifier) (suppressEvents : bool) :
  NoDup (_created (the_store w)) ->
  _loading (the_store w) = false ->
  let w1 := step (OpAdd (Entity r) suppressEvent) w in
  _data (the_store w1) = _data (the_store w) ++ [r] ->
  leaves_alone r ops w1 = true ->
  let w2 := run ops w1 in
  remove_target (objects w2) data (the_store w2) = Some r ->
  let w3 := step (OpRemove data suppressEvents) w2 in
  ~ In r (_created (the_store w3)) /\
  (In r (_deleted (the_store w3)) <-> In r (_deleted (the_store w))).
Proof.
  intros Hnd Hl w1 Hadded Hquiet w2 Htarget w3.
  assert (Hnd2 : NoDup (_created (the_store w2))).
  { by apply run_created_NoDup, step_created_NoDup. }
  destruct (add_tracks r (objects w) (Entity r) suppressEvent (the_store w) Hl)
    as (Hl1 & _ & Hd1).
  pose proof (add_puts_in_created (objects w) r suppressEvent (the_store w) Hl Hadded)
    as Hc1.
  destruct (run_tracks r ops w1 Hquiet Hl1) as (Hl2 & Hc2 & Hd2).
  destruct (remove_created_record (objects w2) data suppressEvents (the_store w2) r
              Htarget Hl2 Hnd2 (Hc2 Hc1)) as [Hc3 Hd3].
  split; [exact Hc3|].
  change (_deleted (the_store w3))
    with (_deleted (final (remove (objects w2) data suppressEvents (the_store w2)))).
  rewrite Hd3. fold w2 in Hd2. tauto.
Qed.

(** Jane Doe is added after a load, renamed, and removed after another
    record has been removed. *)
Lemma add_then_remove_net_zero_witness :
  let w := run [OpLoad [Entity john_doe]] people_world in
  let w3 := run [OpAdd (Entity jane_doe) false;
                 OpSetField jane_doe "lname" (VStr "Roe") (VStr "d");
                 OpRemove (Position 0) false;
                 OpRemove (OfRecord jane_doe) false] w in
  ~ In jane_doe (_created (the_store w3)) /\
  (In jane_doe (_deleted (the_store w3)) <-> In jane_doe (_deleted (the_store w))).
Proof.
  apply (add_then_remove_net_zero
           (run [OpLoad [Entity john_doe]] people_world) jane_doe false
           [OpSetField jane_doe "lname" (VStr "Roe") (VStr "d"); OpRemove (Position 0) false]
           (OfRecord jane_doe) false).
  - vm_compute. constructor.
  - vm_compute; reflexivity.
  - vm_compute; reflexivity.
  - vm_compute; reflexivity.
  - vm_compute; reflexivity.
Defined.

(** * Further properties of the store *)

(** ** Filters *)

(** X1: [applyFilters] keeps, in their order, exactly the elements that
    every registered filter accepts. *)
Theorem applyFilters_all (h : heap) (s : store) (data : list item) :
  applyFilters h s data = List.filter (fun x => forallb (passes h x) (_filters s)) data.
Proof.
  unfold applyFilters, applyFilters_result.
  destruct (_filters s) as [|f fs] eqn:E.
  - simpl. induction data as [|x l IH]; simpl; [done|]. by rewrite <- IH.
  - rewrite <- E. clear E.
    generalize (_filters s) as l. intros l. revert data.
    induction l as [|g l IH]; intros data; simpl.
    + induction data as [|x d IHd]; simpl; [done|]. by rewrite <- IHd.
    + rewrite IH. induction data as [|x d IHd]; simpl; [done|].
      unfold passes at 2. destruct (test g h x); simpl; [|done].
      destruct (forallb _ l); by rewrite IHd.
Qed.

(** A filter that is appended and then removed by function leaves the list
    of filters as it was. *)
Lemma findIndex_from_app_last {A} (t : A -> bool) (l : list A) (x : A) : forall i,
  (forall y, In y l -> t y = false) -> t x = true ->
  findIndex_from t (l ++ [x]) i = i + Z.of_nat (length l).
Proof.
  induction l as [|y l IH]; intros i Hl Hx; simpl.
  - rewrite Hx. lia.
  - rewrite (Hl y) by (by left). rewrite IH; [lia| |done].
    intros z Hz. apply Hl. by right.
Qed.

Lemma splice1_app_last {A} (l : list A) (x : A) :
  splice1 (Z.of_nat (length l)) (l ++ [x]) = ([x], l).
Proof.
  rewrite (splice1_inside _ _ x).
  - rewrite take_app_length, drop_ge by (rewrite length_app; simpl; lia).
    by rewrite app_nil_r.
  - by rewrite lookup_app_r, Nat.sub_diag by lia.
Qed.

(** X2: a function that is not a registered filter is registered with
    [addFilter] and removed again with [removeFilter(fn)]: the list of
    filters is back to what it was, and the two calls have emitted
    'filter.create' and, unless suppressed, 'filter.delete' for it. *)
Theorem addFilter_removeFilter (fn : filter) (suppressEvents : bool) (s : store) :
  (forall g, In g (_filters s) -> fid g <> fid fn) ->
  let s' := final (removeFilter (ByFunction fn) suppressEvents (final (addFilter fn s))) in
  _filters s' = _filters s /\
  emitted s' = emitted s ++ FilterCreate fn
                 :: (if suppressEvents then [] else [FilterDelete fn]).
Proof.
  intros Hnot.
  change (final (addFilter fn s))
    with (log_event (FilterCreate fn) (set_filters (_filters s ++ [fn]) s)).
  set (s1 := log_event _ _).
  assert (Hi : findIndex (fun g => filter_eqb g fn) (_filters s1)
               = Z.of_nat (length (_filters s))).
  { unfold findIndex. subst s1. cbn [_filters log_event set_filters].
    rewrite findIndex_from_app_last; [lia| |apply Nat.eqb_refl].
    intros g Hg. apply Nat.eqb_neq. by apply Hnot. }
  unfold removeFilter, bind, get. cbv zeta. rewrite Hi.
  change (_filters s1) with (_filters s ++ [fn]). rewrite splice1_app_last.
  unfold modify, when, emit, modify, ret. subst s1.
  destruct suppressEvents; cbn; [done|by rewrite <- app_assoc].
Qed.

(** One filter registered, then a second one added and removed. *)
Lemma addFilter_removeFilter_witness :
  let s := final (addFilter accept_all (new_store [] None None)) in
  let s' := final (removeFilter (ByFunction reject_all) false (final (addFilter reject_all s))) in
  _filters s' = _filters s /\
  emitted s' = emitted s ++ [FilterCreate reject_all; FilterDelete reject_all].
Proof.
  apply (addFilter_removeFilter reject_all false
           (final (addFilter accept_all (new_store [] None None)))).
  intros g Hg. vm_compute in Hg. destruct Hg as [<-|[]]. vm_compute. discriminate.
Defined.

Lemma splice1_negative {A} (n : Z) (l : list A) :
  - Z.of_nat (length l) <= n < 0 ->
  splice1 n l = splice1 (Z.of_nat (length l) + n) l.
Proof.
  intros H. unfold splice1.
  destruct (Z.ltb_spec n 0); [|lia].
  destruct (Z.ltb_spec (Z.of_nat (length l) + n) 0); [lia|].
  by rewrite Z.max_l, Z.min_l by lia.
Qed.

(** X3: [removeFilter(n)] with a number.  For [0 <= n] inside the list it
    removes the filter at position [n] and emits 'filter.delete' for it
    unless suppressed; for [n] at or past the end it leaves the store as it
    is and emits nothing; a negative [n] not below [-length] counts from the
    end. *)
Theorem removeFilter_by_number (n : Z) (suppressEvents : bool) (s : store) :
  (forall f, 0 <= n -> _filters s !! Z.to_nat n = Some f ->
     let s' := final (removeFilter (ByNumber n) suppressEvents s) in
     _filters s' = delete (Z.to_nat n) (_filters s) /\
     emitted s' = emitted s ++ (if suppressEvents then [] else [FilterDelete f])) /\
  (Z.of_nat (length (_filters s)) <= n ->
     removeFilter (ByNumber n) suppressEvents s = Returned tt s) /\
  (- Z.of_nat (length (_filters s)) <= n < 0 ->
     removeFilter (ByNumber n) suppressEvents s
       = removeFilter (ByNumber (Z.of_nat (length (_filters s)) + n)) suppressEvents s).
Proof.
  unfold removeFilter, bind, get. split; [|split].
  - intros f Hn Hf. cbv zeta.
    remember (Z.to_nat n) as k eqn:Ek. assert (En : n = Z.of_nat k) by lia. subst n.
    rewrite (splice1_inside _ _ f Hf).
    unfold modify, when, emit, modify, ret. rewrite delete_take_drop.
    destruct suppressEvents; cbn; [by rewrite app_nil_r|done].
  - intros Hn. rewrite splice1_beyond by done. unfold modify, ret.
    by destruct s.
  - intros Hn. by rewrite splice1_negative.
Qed.

(** Positions 0, 5 and -1 of a list of two filters. *)
Lemma removeFilter_by_number_witness :
  let s := final (addFilter reject_all (final (addFilter accept_all (new_store [] None None)))) in
  _filters (final (removeFilter (ByNumber 0) false s)) = [reject_all] /\
  removeFilter (ByNumber 5) false s = Returned tt s /\
  removeFilter (ByNumber (-1)) false s = removeFilter (ByNumber 1) false s.
Proof.
  set (s := final (addFilter reject_all (final (addFilter accept_all (new_store [] None None))))).
  destruct (removeFilter_by_number 0 false s) as (H1 & _ & _).
  destruct (removeFilter_by_number 5 false s) as (_ & H2 & _).
  destruct (removeFilter_by_number (-1) false s) as (_ & _ & H3).
  split; [|split].
  - apply (H1 accept_all); [lia|vm_compute; reflexivity].
  - apply H2. cbn. lia.
  - apply H3. cbn. lia.
Defined.

Lemma clearFilters_loop (l : list filter) : forall s,
  _filters s = l ->
  let s' := final (forEach (rev l)
                     (fun f =>
                        modify (fun s => set_filters (removelast (_filters s)) s) ;;
                        emit (FilterDelete f)) s) in
  _filters s' = [] /\
  emitted s' = emitted s ++ map FilterDelete (rev l) /\
  _data s' = _data s /\ _index s' = _index s /\
  _created s' = _created s /\ _deleted s' = _deleted s.
Proof.
  induction l as [|x l IH] using rev_ind; intros s El.
  - cbn. by rewrite El, app_nil_r.
  - set (s1 := log_event (FilterDelete x) (set_filters (removelast (_filters s)) s)).
    assert (E1 : _filters s1 = l).
    { subst s1. cbn. by rewrite El, removelast_last. }
    destruct (IH s1 E1) as (H1 & H2 & H3 & H4 & H5 & H6).
    cbv zeta. rewrite rev_app_distr.
    match goal with
    | |- context [final (forEach ?l' ?body s)] =>
        change (final (forEach l' body s)) with (final (forEach (rev l) body s1))
    end.
    split; [exact H1|]. split; [|by rewrite H3, H4, H5, H6].
    rewrite H2. subst s1. cbn. by rewrite <- app_assoc.
Qed.

(** X4: [clearFilters] leaves no filter; unless suppressed it emits one
    'filter.delete' per filter, the last registered first; records, index
    and change tracking stay as they are. *)
Theorem clearFilters_all (suppressEvents : bool) (s : store) :
  let s' := final (clearFilters suppressEvents s) in
  _filters s' = [] /\
  emitted s' = emitted s ++ (if suppressEvents then []
                             else map FilterDelete (rev (_filters s))) /\
  _data s' = _data s /\ _index s' = _index s /\
  _created s' = _created s /\ _deleted s' = _deleted s.
Proof.
  unfold clearFilters. destruct suppressEvents.
  - cbn. by rewrite app_nil_r.
  - apply (clearFilters_loop (_filters s) s eq_refl).
Qed.

(** ** Creating and deleting indexes *)

(** X5: on a store that has a model, [createIndex] on a field that is
    already indexed changes nothing: the buckets of the field are kept and
    no event is emitted.  On a store without a model [createIndex] throws a
    TypeError, whatever the field, and changes nothing. *)
Theorem createIndex_again (field : string) (suppressEvents : bool) (s : store) :
  (model s = true -> is_Some (_index s !! field) ->
   createIndex field suppressEvents s = Returned tt s) /\
  (model s = false -> createIndex field suppressEvents s = Thrown TypeError s).
Proof.
  split.
  - intros Hm [buckets H]. unfold createIndex, bind, get, modify, when.
    rewrite Hm. cbn [negb].
    rewrite bool_decide_true by eauto. rewrite !andb_false_r. unfold ret.
    rewrite H. cbn [default]. rewrite insert_id by done. by destruct s.
  - intros Hm. unfold createIndex, bind, get. by rewrite Hm.
Qed.

(** The index on [lname] of the store of three people, and the same store
    without a model. *)
Lemma createIndex_again_witness :
  createIndex "lname" false (the_store indexed_lname) = Returned tt (the_store indexed_lname) /\
  createIndex "lname" false (without_model (the_store indexed_lname))
    = Thrown TypeError (without_model (the_store indexed_lname)).
Proof.
  split.
  - apply createIndex_again; [reflexivity|]. vm_compute. eauto.
  - apply createIndex_again. reflexivity.
Defined.

(** X6: on a store that has a model, [createIndex] on a field that is not
    indexed yet, and whose name is not one that objects inherit from
    [Object.prototype] (such as toString), gives it an entry without
    buckets, whatever records the store holds: every lookup on the field
    returns the empty array.  The other entries and the records are
    untouched, and 'index.created' is emitted unless suppressed. *)
Theorem createIndex_new_is_empty (field : string) (suppressEvents : bool) (s : store) :
  model s = true ->
  inherited_name field = false ->
  _index s !! field = None ->
  let s' := final (createIndex field suppressEvents s) in
  createIndex field suppressEvents s = Returned tt s' /\
  (forall v, getIndices field v s' = Returned (Some []) s') /\
  (forall f, f <> field -> _index s' !! f = _index s !! f) /\
  _data s' = _data s /\
  emitted s' = emitted s ++ (if suppressEvents then [] else [IndexCreated field]).
Proof.
  intros Hm Hown H. unfold createIndex, bind, get, modify, when.
  rewrite Hm, Hown. cbn [negb andb].
  rewrite bool_decide_false by (rewrite H; by intros [? ?]).
  rewrite H. cbn [default]. rewrite andb_true_r.
  destruct suppressEvents; cbn -[insert lookup].
  - split; [done|]. split; [|split; [|split]]; try done.
    + intros v. unfold getIndices. cbn -[insert lookup]. by rewrite lookup_insert_eq.
    + intros f Hf. by rewrite lookup_insert_ne.
    + by rewrite app_nil_r.
  - split; [done|]. split; [|split; [|split]]; try done.
    + intros v. unfold getIndices. cbn -[insert lookup]. by rewrite lookup_insert_eq.
    + intros f Hf. by rewrite lookup_insert_ne.
Qed.

(** An index on [fname] created on the store of three people. *)
Lemma createIndex_new_is_empty_witness :
  let s' := final (createIndex "fname" false (the_store indexed_lname)) in
  (forall v, getIndices "fname" v s' = Returned (Some []) s') /\
  (forall f, f <> "fname" -> _index s' !! f = _index (the_store indexed_lname) !! f) /\
  _data s' = _data (the_store indexed_lname) /\
  emitted s' = emitted (the_store indexed_lname) ++ [IndexCreated "fname"].
Proof.
  apply (createIndex_new_is_empty "fname" false (the_store indexed_lname));
    vm_compute; reflexivity.
Defined.

(** X7: after [deleteIndex(field)] a lookup on the field returns [null],
    the other entries are untouched, and the event emitted (unless
    suppressed) is the one of [createIndex]; on a field that is not indexed
    the call changes nothing. *)
Theorem deleteIndex_lookup (field : string) (suppressEvents : bool) (s : store) :
  (is_Some (_index s !! field) ->
   let s' := final (deleteIndex field suppressEvents s) in
   (forall v, getIndices field v s' = Returned None s') /\
   (forall f, f <> field -> _index s' !! f = _index s !! f) /\
   emitted s' = emitted s ++ (if suppressEvents then [] else [IndexCreated field])) /\
  (_index s !! field = None -> deleteIndex field suppressEvents s = Returned tt s).
Proof.
  unfold deleteIndex, bind, get, modify, when. split.
  - intros Hs. rewrite bool_decide_true by done.
    destruct suppressEvents; cbn -[delete lookup].
    + repeat split.
      * intros v. unfold getIndices. cbn -[delete lookup]. by rewrite lookup_delete_eq.
      * intros f Hf. by rewrite lookup_delete_ne.
      * by rewrite app_nil_r.
    + repeat split.
      * intros v. unfold getIndices. cbn -[delete lookup]. by rewrite lookup_delete_eq.
      * intros f Hf. by rewrite lookup_delete_ne.
  - intros H. rewrite bool_decide_false; [done|]. rewrite H. by intros [? ?].
Qed.

(** The index on [lname] deleted, and a field that has no index. *)
Lemma deleteIndex_lookup_witness :
  getIndices "lname" (VStr "Doe") (final (deleteIndex "lname" false (the_store indexed_lname)))
    = Returned None (final (deleteIndex "lname" false (the_store indexed_lname))) /\
  deleteIndex "fname" false (the_store indexed_lname) = Returned tt (the_store indexed_lname).
Proof.
  destruct (deleteIndex_lookup "lname" false (the_store indexed_lname)) as [H1 _].
  destruct (deleteIndex_lookup "fname" false (the_store indexed_lname)) as [_ H2].
  split.
  - destruct H1 as (H & _ & _); [vm_compute; eauto|]. apply H.
  - apply H2. vm_compute. reflexivity.
Defined.

Lemma deleteIndex_index field suppressEvents s :
  _index (final (deleteIndex field suppressEvents s)) = delete field (_index s) /\
  _data (final (deleteIndex field suppressEvents s)) = _data s /\
  (suppressEvents = true ->
   emitted (final (deleteIndex field suppressEvents s)) = emitted s).
Proof.
  unfold deleteIndex, bind, get, modify, when.
  destruct (_index s !! field) as [b|] eqn:E.
  - rewrite bool_decide_true by eauto. by destruct suppressEvents.
  - rewrite bool_decide_false by (by intros [? ?]). cbn.
    by rewrite delete_id.
Qed.

Lemma deleteIndexes_loop suppressEvents keys : forall s,
  let s' := final (deleteIndexes keys suppressEvents s) in
  (forall f, _index s' !! f = if bool_decide (f ∈ keys) then None else _index s !! f) /\
  _data s' = _data s /\
  (suppressEvents = true -> emitted s' = emitted s).
Proof.
  unfold deleteIndexes.
  induction keys as [|key keys IH]; intros s; cbv zeta.
  - cbn. repeat split; try done.
  - cbn [forEach]. unfold bind.
    destruct (deleteIndex_index key suppressEvents s) as (Hi & Hd & He).
    destruct (deleteIndex key suppressEvents s) as [[] s1|e s1] eqn:E.
    + cbn [final] in *. cbv beta iota. destruct (IH s1) as (IHi & IHd & IHe).
      split; [|split].
      * intros f. rewrite IHi, Hi.
        destruct (decide (f = key)) as [->|Hne].
        -- rewrite lookup_delete_eq.
           rewrite (bool_decide_true (key ∈ key :: keys)) by (by left).
           by destruct (bool_decide _).
        -- rewrite lookup_delete_ne by done.
           destruct (bool_decide (f ∈ keys)) eqn:Ek.
           ++ apply bool_decide_eq_true in Ek. by rewrite bool_decide_true by (by right).
           ++ apply bool_decide_eq_false in Ek.
              rewrite bool_decide_false; [done|].
              intros [?|?]%elem_of_cons; congruence.
      * by rewrite IHd.
      * intros Hs. by rewrite (IHe Hs), (He Hs).
    + exfalso. unfold deleteIndex, bind, get, modify, when in E.
      destruct (bool_decide _); [destruct (negb suppressEvents)|]; discriminate.
Qed.

(** X8: [deleteIndexes], run over a list of keys that holds every indexed
    field, leaves no field indexed; the records stay, and with events
    suppressed (the default) nothing is emitted. *)
Theorem deleteIndexes_all (keys : list string) (suppressEvents : bool) (s : store) :
  (forall f, is_Some (_index s !! f) -> In f keys) ->
  let s' := final (deleteIndexes keys suppressEvents s) in
  _index s' = ∅ /\
  _data s' = _data s /\
  (suppressEvents = true -> emitted s' = emitted s).
Proof.
  intros Hkeys. destruct (deleteIndexes_loop suppressEvents keys s) as (Hi & Hd & He).
  split; [|by split].
  apply map_eq. intros f. rewrite Hi, lookup_empty.
  destruct (bool_decide (f ∈ keys)) eqn:E; [done|].
  apply bool_decide_eq_false in E.
  destruct (_index s !! f) eqn:Ef; [|done]. exfalso.
  apply E, list_elem_of_In, Hkeys. by rewrite Ef.
Qed.

(** The store indexed on both names. *)
Lemma deleteIndexes_all_witness :
  let s' := final (deleteIndexes ["lname"; "fname"] true (the_store indexed_names)) in
  _index s' = ∅ /\
  _data s' = _data (the_store indexed_names) /\
  (true = true -> emitted s' = emitted (the_store indexed_names)).
Proof.
  apply (deleteIndexes_all ["lname"; "fname"] true (the_store indexed_names)).
  intros f [b Hf].
  assert (E : _index (the_store indexed_names)
              = <["lname" := [[VStr "Doe"; VNum 0; VNum 1]; [VStr "Vaughn"; VNum 2]]]>
                  (<["fname" := [[VStr "John"; VNum 0]; [VStr "Jane"; VNum 1; VNum 2]]]> ∅))
    by (vm_compute; reflexivity).
  rewrite E in Hf.
  destruct (decide (f = "lname")) as [->|H1]; [by left|].
  destruct (decide (f = "fname")) as [->|H2]; [by right; left|].
  rewrite lookup_insert_ne in Hf by congruence.
  rewrite lookup_insert_ne in Hf by congruence.
  rewrite lookup_empty in Hf. discriminate Hf.
Defined.

(** ** Duplicates, membership and removal *)

Lemma findIndex_from_first {A} (t : A -> bool) (l : list A) : forall i,
  0 <= i -> 0 <= findIndex_from t l i ->
  forall (j : nat) y, (Z.of_nat j < findIndex_from t l i - i) -> l !! j = Some y -> t y = false.
Proof.
  induction l as [|x l IH]; intros i Hi Hf j y Hj Hy; [done|].
  simpl in *. destruct (t x) eqn:Hx; [lia|].
  destruct j as [|j]; simpl in Hy.
  - by injection Hy as <-.
  - apply (IH (i + 1) ltac:(lia) Hf j y); [lia|done].
Qed.

Lemma findIndex_found {A} (t : A -> bool) (l : list A) x :
  In x l -> t x = true -> 0 <= findIndex t l < Z.of_nat (length l).
Proof.
  intros Hin Ht. unfold findIndex.
  destruct (findIndex_from_range t l 0) as [E|E]; [lia| |lia].
  assert (H : findIndex_from t l 0 < 0) by lia.
  pose proof (findIndex_from_neg t l 0 ltac:(lia) H x Hin). congruence.
Qed.

(** [isDuplicate] holds exactly for a record that is not itself in the
    store while some stored record has its checksum. *)
Lemma isDuplicate_true h rec s :
  isDuplicate h rec s = true <->
  ~ In rec (_data s) /\ exists r, In r (_data s) /\ checksum (h r) = checksum (h rec).
Proof.
  unfold isDuplicate.
  destruct (Z.leb_spec 0 (indexOf_ref rec (_data s))) as [Hi|Hi].
  - split; [done|]. intros [Hn _]. apply indexOf_ref_neg in Hn. lia.
  - apply indexOf_ref_neg in Hi. rewrite Nat.ltb_lt. split.
    + intros Hlen. split; [done|].
      destruct (List.filter _ _) as [|r l] eqn:E; [simpl in Hlen; lia|].
      assert (Hr : In r (List.filter
                           (fun r0 => strict_eq (checksum (h r0)) (checksum (h rec)))
                           (_data s))) by (rewrite E; by left).
      apply filter_In in Hr as [Hr Hc]. exists r. split; [done|].
      by apply strict_eq_true.
    + intros [_ (r & Hr & Hc)].
      assert (Hin : In r (List.filter
                            (fun r0 => strict_eq (checksum (h r0)) (checksum (h rec)))
                            (_data s))).
      { apply filter_In. split; [done|]. by apply strict_eq_true. }
      destruct (List.filter _ _); [done|]. simpl. lia.
Qed.

(** X9: with [allowDuplicates] off, adding a record that is not in the
    store while a stored record has its checksum is refused: the call emits
    'record.duplicate' and changes nothing else; it throws exactly when
    [errorOnDuplicate] is on. *)
Theorem add_refuses_duplicate (h : heap) (rec : ref) (suppressEvent : bool) (s : store) :
  allowDuplicates s = false ->
  ~ In rec (_data s) ->
  (exists r, In r (_data s) /\ checksum (h r) = checksum (h rec)) ->
  add h (Entity rec) suppressEvent s
    = (if errorOnDuplicate s then Thrown DuplicateRecord else Returned tt)
        (log_event (RecordDuplicate rec) s).
Proof.
  intros Ha Hn Hex. unfold add, bind, get.
  rewrite (proj2 (isDuplicate_true h rec s)) by done.
  unfold emit, modify. cbn [_data log_event allowDuplicates errorOnDuplicate].
  rewrite Ha. cbn [negb]. by destruct (errorOnDuplicate s).
Qed.

(** The second twin, in the store that refuses duplicates. *)
Lemma add_refuses_duplicate_witness :
  let s := final (add twins (Entity 1%positive) false strict_store) in
  add twins (Entity 2%positive) false s
    = Thrown DuplicateRecord (log_event (RecordDuplicate 2%positive) s).
Proof.
  apply (add_refuses_duplicate twins 2%positive false
           (final (add twins (Entity 1%positive) false strict_store))).
  - vm_compute. reflexivity.
  - vm_compute. intros [H|[]]. discriminate.
  - exists 1%positive. split; vm_compute; [by left|reflexivity].
Defined.

Lemma add_insert_effect h rec suppressEvent s :
  exists s',
    add_insert h rec suppressEvent s = Returned tt s' /\
    _data s' = _data s ++ [rec] /\
    _index s' = _index (applyIndices h rec (Z.of_nat (length (_data s))) s) /\
    _created s' = (if negb (_loading s) && (indexOf_ref rec (_created s) <? 0)
                   then _created s ++ [rec] else _created s) /\
    _deleted s' = _deleted s /\ _filters s' = _filters s /\
    _loading s' = _loading s /\
    listeners s' = listeners s ++ [rec] /\
    emitted s' = emitted s ++ (if suppressEvent then [] else [RecordCreate rec]).
Proof.
  unfold add_insert, bind, get, listen, modify, when, emit, modify, ret.
  cbn [_data _created _loading add_listener set_data applyIndices set_index].
  destruct (negb (_loading s) && (indexOf_ref rec (_created s) <? 0)), suppressEvent;
    eexists; (split; [reflexivity|]); cbn; by rewrite ?app_nil_r.
Qed.

(** X10: unless it is refused as a duplicate, a record is appended: the
    call returns and [_data] grows by the record at its end.  That is so
    when duplicates are allowed, when no stored record has the checksum,
    and also when the very same object is already stored, whatever
    [allowDuplicates] says.  Outside bulk mode the record is then in
    [_created]; [_deleted] is as before. *)
Theorem add_appends (h : heap) (rec : ref) (suppressEvent : bool) (s : store) :
  allowDuplicates s = true \/ In rec (_data s) \/
  (forall r, In r (_data s) -> checksum (h r) <> checksum (h rec)) ->
  exists s',
    add h (Entity rec) suppressEvent s = Returned tt s' /\
    _data s' = _data s ++ [rec] /\
    (_loading s = false -> In rec (_created s')) /\
    _deleted s' = _deleted s.
Proof.
  intros Hok. unfold add, bind, get.
  assert (Hins : forall s0, _data s0 = _data s -> _created s0 = _created s ->
                   _deleted s0 = _deleted s -> _loading s0 = _loading s ->
                   exists s', add_insert h rec suppressEvent s0 = Returned tt s' /\
                     _data s' = _data s ++ [rec] /\
                     (_loading s = false -> In rec (_created s')) /\
                     _deleted s' = _deleted s).
  { intros s0 Hd Hc Hdel Hl.
    destruct (add_insert_effect h rec suppressEvent s0)
      as (s' & E & H1 & _ & H3 & H4 & _).
    exists s'. split; [done|]. split; [by rewrite H1, Hd|]. split; [|by rewrite H4].
    intros Hload. rewrite H3, Hl, Hload, Hc. cbn [negb andb].
    destruct (Z.ltb_spec (indexOf_ref rec (_created s)) 0) as [Hi|Hi].
    - apply in_app_iff. right. by left.
    - destruct (in_dec Pos.eq_dec rec (_created s)) as [?|Hn]; [done|].
      apply indexOf_ref_neg in Hn. lia. }
  destruct (isDuplicate h rec s) eqn:Edup; [|by apply Hins].
  unfold emit, modify. cbn [allowDuplicates log_event].
  apply isDuplicate_true in Edup as [Hn (r & Hr & Hc)].
  destruct Hok as [Ha|[Hin|Hno]].
  - rewrite Ha. cbn [negb]. by apply Hins.
  - done.
  - by destruct (Hno r Hr).
Qed.

(** John Doe added a second time to a store that does not allow
    duplicates. *)
Lemma add_appends_witness :
  exists s',
    add twins (Entity 1%positive) false
        (final (add twins (Entity 1%positive) false strict_store)) = Returned tt s' /\
    _data s' = [1%positive] ++ [1%positive] /\
    (false = false -> In 1%positive (_created s')) /\
    _deleted s' = [].
Proof.
  apply (add_appends twins 1%positive false
           (final (add twins (Entity 1%positive) false strict_store))).
  right. left. vm_compute. by left.
Defined.

(** For an instance of the model class, or an object with a truthy
    checksum, [indexOf] is the search by checksum. *)
Lemma indexOf_by_checksum h record s :
  instanceof_Model (h record) = true \/ truthy (checksum (h record)) = true ->
  indexOf h record s
  = findIndex (fun el => strict_eq (checksum (h el)) (checksum (h record))) (_data s).
Proof. unfold indexOf. by intros [-> | ->]; rewrite ?andb_false_r. Qed.

(** X11: [indexOf] and [contains] go by checksum, not by identity.  For an
    object that is no instance of NGN.DATA.Model and whose checksum is
    falsy, [indexOf] is -1 and [contains] is false, whatever is stored.
    For any other object, [contains(record)] holds exactly when some stored
    record has the record's checksum, and [indexOf(record)] is then the
    first position of such a record (and -1 otherwise). *)
Theorem contains_by_checksum (h : heap) (record : ref) (s : store) :
  (instanceof_Model (h record) = false /\ truthy (checksum (h record)) = false ->
   indexOf h record s = -1 /\ contains h record s = false) /\
  (instanceof_Model (h record) = true \/ truthy (checksum (h record)) = true ->
   (contains h record s = true <->
    exists r, In r (_data s) /\ checksum (h r) = checksum (h record)) /\
   (contains h record s = true ->
    exists r, _data s !! Z.to_nat (indexOf h record s) = Some r /\
              checksum (h r) = checksum (h record) /\
              forall (j : nat) r', Z.of_nat j < indexOf h record s ->
                _data s !! j = Some r' -> checksum (h r') <> checksum (h record)) /\
   (contains h record s = false -> indexOf h record s = -1)).
Proof.
  split.
  - intros [Hm Hc]. unfold contains, indexOf. by rewrite Hm, Hc.
  - intros Hobj. unfold contains. rewrite (indexOf_by_checksum h record s Hobj).
    unfold findIndex.
    set (t := fun el => strict_eq (checksum (h el)) (checksum (h record))).
    split; [|split].
    + rewrite Z.leb_le. split.
      * intros Hi.
        destruct (findIndex_from_found t (_data s) 0) as (r & Hr & Ht); [lia|done|].
        exists r. split; [|by apply strict_eq_true].
        apply list_elem_of_In. by eapply list_elem_of_lookup_2.
      * intros (r & Hr & Hc).
        apply (findIndex_found t (_data s) r Hr). by apply strict_eq_true.
    + rewrite Z.leb_le. intros Hi.
      destruct (findIndex_from_found t (_data s) 0) as (r & Hr & Ht); [lia|done|].
      rewrite Z.sub_0_r in Hr. exists r. split; [done|].
      split; [by apply strict_eq_true|].
      intros j r' Hj Hr' Hc.
      assert (Hf : t r' = false).
      { apply (findIndex_from_first t (_data s) 0 ltac:(lia) Hi j); [lia|done]. }
      unfold t in Hf. apply strict_eq_false in Hf. done.
    + rewrite Z.leb_gt. intros Hi.
      destruct (findIndex_from_range t (_data s) 0) as [E|E]; [lia|done|lia].
Qed.

(** The second twin is "contained" in a store that holds only the first;
    an object without a checksum is not, even in a store that holds it. *)
Lemma contains_by_checksum_witness :
  let s := final (add twins (Entity 1%positive) false strict_store) in
  (contains twins 2%positive s = true /\
   exists r, _data s !! Z.to_nat (indexOf twins 2%positive s) = Some r /\
             checksum (twins r) = checksum (twins 2%positive)) /\
  contains (fun _ => blank) 1%positive s = false.
Proof.
  set (s := final (add twins (Entity 1%positive) false strict_store)).
  split.
  - destruct (contains_by_checksum twins 2%positive s) as [_ H].
    destruct H as ([_ H1] & H2 & _); [right; vm_compute; reflexivity|].
    assert (Hc : contains twins 2%positive s = true).
    { apply H1. exists 1%positive. split; vm_compute; [by left|reflexivity]. }
    split; [exact Hc|].
    destruct (H2 Hc) as (r & Hr & Hcs & _). by exists r.
  - destruct (contains_by_checksum (fun _ => blank) 1%positive s) as [H _].
    apply H. split; reflexivity.
Defined.

(** X12: a [remove] that finds its record takes exactly that position out
    of [_data], returns, and emits 'record.delete' for the removed record
    unless suppressed.  The index table is left as it was: the positions it
    holds are not adjusted. *)
Theorem remove_found (h : heap) (data : identifier) (suppressEvents : bool)
    (s : store) (r : ref) :
  remove_target h data s = Some r ->
  exists s',
    remove h data suppressEvents s = Returned tt s' /\
    _data s' = delete (Z.to_nat (remove_num h data s)) (_data s) /\
    _index s' = _index s /\
    _filters s' = _filters s /\
    emitted s' = emitted s ++ (if suppressEvents then [] else [RecordDelete r]).
Proof.
  unfold remove_target. cbv zeta. intros Ht.
  destruct (Z.ltb_spec (remove_num h data s) 0) as [|Hnum]; [done|].
  unfold remove, bind, get.
  destruct (Z.ltb_spec (remove_num h data s) 0); [lia|].
  rewrite (splice1_at _ _ r Hnum Ht).
  unfold modify, when, emit, modify, ret. rewrite unapplyIndices_same.
  cbn [_loading _created _deleted set_data].
  destruct (negb (_loading s)), (0 <=? indexOf_ref r (_created s)),
           (indexOf_ref r (_deleted s) <? 0), suppressEvents;
    eexists; (split; [reflexivity|]); cbn; by rewrite ?app_nil_r.
Qed.

(** Jane Doe, the second of three people, removed by record. *)
Lemma remove_found_witness :
  exists s',
    remove people (OfRecord jane_doe) false (the_store indexed_lname) = Returned tt s' /\
    _data s' = [john_doe; jane_vaughn] /\
    _index s' = _index (the_store indexed_lname) /\
    _filters s' = _filters (the_store indexed_lname) /\
    emitted s' = emitted (the_store indexed_lname) ++ [RecordDelete jane_doe].
Proof.
  destruct (remove_found people (OfRecord jane_doe) false (the_store indexed_lname) jane_doe)
    as (s' & E & Hd & Hrest); [vm_compute; reflexivity|].
  exists s'. split; [exact E|]. split; [|exact Hrest].
  rewrite Hd. vm_compute. reflexivity.
Defined.



(** ** Bulk loads *)

Lemma bulk_mode_refl s : bulk_mode s s.
Proof. by intros H. Qed.

Lemma bulk_mode_trans s1 s2 s3 : bulk_mode s1 s2 -> bulk_mode s2 s3 -> bulk_mode s1 s3.
Proof.
  intros H12 H23 H1. destruct (H12 H1) as (H2 & Hc & Hd).
  destruct (H23 H2) as (H3 & Hc' & Hd'). repeat split; congruence.
Qed.

Lemma add_bulk_mode h data suppressEvent : preserves bulk_mode (add h data suppressEvent).
Proof.
  unfold add, add_insert.
  frame bulk_mode_refl bulk_mode_trans; try (by intros ?).
  all: fields_of_update; intros Hl; fields_of_update; try done.
  all: match goal with H : negb _ && _ = true |- _ => rewrite Hl in H; discriminate H end.
Qed.

(** X14: a bulk load ([load], [reload]) that runs to its end leaves bulk
    mode and empties both [_created] and [_deleted]; the last event is
    'load' (or 'reload').  One that is cut short by an error, a refused
    duplicate or a non-object, leaves the store in bulk mode, with
    [_created] and [_deleted] as they were. *)
Theorem bulk_outcome (h : heap) (ev : event) (data : list payload) (s : store) :
  match bulk h ev data s with
  | Returned _ s' =>
      _loading s' = false /\ _created s' = [] /\ _deleted s' = [] /\
      exists before, emitted s' = before ++ [ev]
  | Thrown _ s' =>
      _loading s' = true /\ _created s' = _created s /\ _deleted s' = _deleted s
  end.
Proof.
  unfold bulk. unfold bind at 1. unfold modify at 1.
  unfold bind at 1.
  pose proof (at_forEach bulk_mode bulk_mode_refl bulk_mode_trans data
                (fun rec => add h rec true) (set_loading true s)
                (fun x => add_bulk_mode h x true)) as H.
  unfold preserves_at in H.
  destruct (forEach data _ (set_loading true s)) as [[] s1|e s1].
  - cbn. repeat split; try done. by eexists.
  - cbn [final] in H. destruct (H eq_refl) as (H1 & H2 & H3). done.
Qed.

(** A load refused half way: the second twin is a duplicate. *)
Example load_cut_short :
  exists s', load twins [Entity 1%positive; Entity 2%positive] strict_store
               = Thrown DuplicateRecord s' /\
             _loading s' = true /\ _data s' = [1%positive].
Proof. eexists. split; [vm_compute; reflexivity|]. split; reflexivity. Qed.

(** ** An index that is exact *)

Lemma index_exact_same h s s' field :
  _index s' = _index s -> _data s' = _data s ->
  index_exact h s field -> index_exact h s' field.
Proof. intros Hi Hd (b & H1 & H2). exists b. by rewrite Hi, Hd. Qed.

Lemma keeps_exact_refl h field s : keeps_exact h field s s.
Proof. by intros H. Qed.

Lemma keeps_exact_trans h field s1 s2 s3 :
  keeps_exact h field s1 s2 -> keeps_exact h field s2 s3 -> keeps_exact h field s1 s3.
Proof. unfold keeps_exact. auto. Qed.

Lemma index_exact_lookup h s field v : index_exact h s field -> lookup_exact h s field v.
Proof.
  intros (buckets & Hb & Htab).
  exists (positions h field v (_data s) 0). split; [|split].
  - apply (getIndices_tabulates (fun v => positions h field v (_data s) 0)
             field v s buckets); done.
  - apply positions_NoDup.
  - intros p. rewrite positions_In. split.
    + intros (k & r & Hk & -> & Hv). split; [lia|]. exists r.
      rewrite Z.add_0_l, Nat2Z.id. split; [done|].
      unfold has_value in Hv. destruct (fields (h r) !! field); [|done].
      apply strict_eq_true in Hv. by subst.
    + intros (Hp & r & Hr & Hv). exists (Z.to_nat p), r.
      split; [done|]. split; [lia|].
      unfold has_value. rewrite Hv. apply strict_eq_refl.
Qed.

Lemma positions_app h field v l r : forall i,
  positions h field v (l ++ [r]) i
    = positions h field v l i
      ++ (if has_value h r field v then [i + Z.of_nat (length l)] else []).
Proof.
  induction l as [|x l IH]; intros i; simpl.
  - rewrite Z.add_0_r. by rewrite app_nil_r.
  - rewrite IH, <- app_assoc. do 3 f_equal.
    destruct (has_value h r field v); [|done]. f_equal. lia.
Qed.

Lemma strict_eq_sym a b : strict_eq a b = strict_eq b a.
Proof.
  destruct (strict_eq a b) eqn:E1, (strict_eq b a) eqn:E2; try done.
  - apply strict_eq_true in E1. apply strict_eq_false in E2. congruence.
  - apply strict_eq_true in E2. apply strict_eq_false in E1. congruence.
Qed.

Lemma add_insert_keeps_exact h field rec suppressEvent s :
  preserves_at (keeps_exact h field) (add_insert h rec suppressEvent) s.
Proof.
  intros (buckets & Hb & Htab).
  destruct (add_insert_effect h rec suppressEvent s) as (s' & E & Hd & Hi & _).
  unfold preserves_at. rewrite E. cbn [final].
  exists (if hasOwnProperty h rec field
          then apply_value (prop h rec field) (Z.of_nat (length (_data s))) buckets
          else buckets).
  split.
  - by rewrite Hi, applyIndices_lookup, Hb.
  - rewrite Hd. destruct (hasOwnProperty h rec field) eqn:Eh.
    + eapply tabulates_ext; [|apply apply_value_tabulates; exact Htab].
      intros v. cbv beta. rewrite positions_app, has_value_prop, Eh, Z.add_0_l.
      cbn [andb]. by rewrite strict_eq_sym.
    + eapply tabulates_ext; [|exact Htab].
      intros v. rewrite positions_app, has_value_prop, Eh. cbn [andb].
      by rewrite app_nil_r.
Qed.

Lemma log_event_keeps_exact h field e s : keeps_exact h field s (log_event e s).
Proof. unfold keeps_exact. by apply index_exact_same. Qed.

Lemma add_keeps_exact h field data suppressEvent :
  preserves (keeps_exact h field) (add h data suppressEvent).
Proof.
  intros s. unfold add. destruct data as [rec|]; [|by intros ?].
  apply at_get_bind. destruct (isDuplicate h rec s).
  - unfold emit. apply (at_modify_bind _ (keeps_exact_trans h field));
      [apply log_event_keeps_exact|].
    cbn [allowDuplicates log_event].
    destruct (negb (allowDuplicates s)); [|apply add_insert_keeps_exact].
    by destruct (errorOnDuplicate s); intros ?.
  - apply add_insert_keeps_exact.
Qed.

Ltac frame_exact h field :=
  frame (keeps_exact_refl h field) (keeps_exact_trans h field);
  try (unfold keeps_exact; by apply index_exact_same).

Lemma bulk_keeps_exact h field ev data : preserves (keeps_exact h field) (bulk h ev data).
Proof. unfold bulk. frame_exact h field. apply add_keeps_exact. Qed.

Lemma clear_keeps_exact h field : preserves (keeps_exact h field) clear.
Proof.
  intros s (buckets & Hb & _). unfold preserves_at.
  change (final (clear s))
    with (log_event Clear (set_index ((fun _ => []) <$> _index s) (set_data [] s))).
  exists []. cbn [_index _data set_index set_data log_event].
  split; [by rewrite lookup_fmap, Hb|]. split; [constructor|done].
Qed.

Lemma reload_keeps_exact h field data : preserves (keeps_exact h field) (reload h data).
Proof.
  unfold reload. frame_exact h field; [apply clear_keeps_exact|apply bulk_keeps_exact].
Qed.

(** [reindex] makes the entry of every indexed field exact. *)
Lemma reindex_index_exact h s field :
  is_Some (_index s !! field) -> index_exact h (reindex h s) field.
Proof.
  intros [old Hold].
  destruct (reindex_from_tabulates h field (_data s) 0 (clearIndices s) (fun _ => []) [])
    as (buckets & Hb & Htab).
  { unfold clearIndices. simpl. by rewrite lookup_fmap, Hold. }
  { split; [constructor|done]. }
  exists buckets. split; [exact Hb|]. by rewrite reindex_data.
Qed.

Lemma createIndex_keeps_exact h field f suppressEvents :
  preserves (keeps_exact h field) (createIndex f suppressEvents).
Proof.
  intros s Hex. unfold preserves_at.
  unfold createIndex, bind, get.
  destruct (negb (model s)); [exact Hex|].
  destruct (inherited_name f && _); [exact Hex|].
  destruct (decide (f = field)) as [->|Hne].
  - destruct Hex as (b & Hb & Htab).
    unfold modify, when.
    rewrite bool_decide_true by eauto. rewrite andb_false_r. unfold ret.
    rewrite Hb. cbn [default]. rewrite insert_id by done.
    exists b. split; [|exact Htab]. exact Hb.
  - destruct Hex as (b & Hb & Htab).
    unfold modify, when.
    destruct (negb suppressEvents && _); exists b; (split; [|exact Htab]);
      cbn -[insert lookup]; by rewrite lookup_insert_ne.
Qed.

Lemma addFilter_keeps_exact h field fn : preserves (keeps_exact h field) (addFilter fn).
Proof. unfold addFilter. frame_exact h field. Qed.

Lemma removeFilter_keeps_exact h field fn suppressEvents :
  preserves (keeps_exact h field) (removeFilter fn suppressEvents).
Proof. unfold removeFilter. frame_exact h field. Qed.

Lemma clearFilters_keeps_exact h field suppressEvents :
  preserves (keeps_exact h field) (clearFilters suppressEvents).
Proof. unfold clearFilters. frame_exact h field. Qed.

Lemma step_keeps_exact field o w :
  insert_only o = true ->
  objects (step o w) = objects w /\
  keeps_exact (objects w) field (the_store w) (the_store (step o w)).
Proof.
  destruct o; try discriminate; intros _; (split; [reflexivity|]); simpl.
  - apply add_keeps_exact.
  - apply bulk_keeps_exact.
  - apply reload_keeps_exact.
  - apply clear_keeps_exact.
  - apply addFilter_keeps_exact.
  - apply removeFilter_keeps_exact.
  - apply clearFilters_keeps_exact.
  - apply createIndex_keeps_exact.
  - intros (b & Hb & _). apply reindex_index_exact. by rewrite Hb.
Qed.

Lemma run_keeps_exact field ops : forall w,
  forallb insert_only ops = true ->
  objects (run ops w) = objects w /\
  keeps_exact (objects w) field (the_store w) (the_store (run ops w)).
Proof.
  induction ops as [|o ops IH]; intros w H; simpl.
  - split; [done|apply keeps_exact_refl].
  - apply andb_prop in H as [Ho Hops].
    destruct (step_keeps_exact field o w Ho) as [Hobj Hk].
    destruct (IH (step o w) Hops) as [Hobj' Hk']. split; [congruence|].
    rewrite Hobj in Hk'. eapply keeps_exact_trans; [exact Hk|exact Hk'].
Qed.

Lemma new_store_index index allowDup errorOnDup field :
  In field index -> _index (new_store index allowDup errorOnDup) !! field = Some [].
Proof.
  unfold new_store. cbn [_index]. generalize (∅ : gmap string (list bucket)) as m.
  induction index as [|i index IH]; intros m Hin; [done|]. simpl.
  destruct (in_dec String.string_dec field index) as [Hi|Hi]; [by apply IH|].
  destruct Hin as [->|Hin]; [|done].
  clear IH. assert (E : (<[field:=[]]> m) !! field = Some []) by apply lookup_insert_eq.
  revert E. generalize (<[field:=[]]> m) as m'. clear m.
  induction index as [|j index IH]; intros m' E; [done|]. simpl.
  apply IH; [intros ?; apply Hi; by right|].
  rewrite lookup_insert_ne; [done|]. intros ->. apply Hi. by left.
Qed.

Lemma insert_only_index_exact h index allowDup errorOnDup ops field :
  In field index ->
  forallb insert_only ops = true ->
  let w := run ops {| objects := h; the_store := new_store index allowDup errorOnDup |} in
  objects w = h /\ index_exact h (the_store w) field.
Proof.
  intros Hin Hops w.
  destruct (run_keeps_exact field ops
              {| objects := h; the_store := new_store index allowDup errorOnDup |} Hops)
    as [Hobj Hk].
  fold w in Hobj, Hk. cbn [objects the_store] in Hobj, Hk. split; [done|].
  apply Hk. exists []. split; [by apply new_store_index|]. split; [constructor|done].
Qed.

(** X15: in a store that has had [field] indexed since it was made, and
    that has seen only additions, bulk loads, clears, filter changes, index
    creations and reindexes (no removal, no lookup, no change of a stored
    record), the lookup [getIndices(field, v)] returns, without a reindex,
    exactly the positions of the records that have the value. *)
Theorem lookup_exact_without_removals (h : heap) (index : list string)
    (allowDup errorOnDup : option bool) (ops : list op) (field : string) (v : value) :
  In field index ->
  forallb insert_only ops = true ->
  let w := run ops {| objects := h; the_store := new_store index allowDup errorOnDup |} in
  lookup_exact (objects w) (the_store w) field v.
Proof.
  intros Hin Hops w.
  destruct (insert_only_index_exact h index allowDup errorOnDup ops field Hin Hops)
    as [Hobj Hex].
  fold w in Hobj, Hex. rewrite Hobj. by apply index_exact_lookup.
Qed.

(** The store of three people, after its three adds. *)
Lemma lookup_exact_without_removals_witness :
  lookup_exact (objects indexed_lname) (the_store indexed_lname) "lname" (VStr "Doe").
Proof.
  apply (lookup_exact_without_removals people ["lname"] None None add_people
           "lname" (VStr "Doe")).
  - by left.
  - reflexivity.
Defined.

(** ** find on an exact index *)

(** A lookup on an exact entry: the positions of the value, the records
    untouched. *)
Lemma getIndices_exact h s field v :
  index_exact h s field ->
  exists s',
    getIndices field v s = Returned (Some (map VNum (positions h field v (_data s) 0))) s' /\
    same_but_index s s'.
Proof.
  intros (buckets & Hb & _ & Htab). unfold getIndices. rewrite Hb, (Htab v).
  destruct (positions h field v (_data s) 0) as [|p ps].
  - exists s. split; [done|]. unfold same_but_index. by destruct s.
  - eexists. split; [reflexivity|]. unfold same_but_index. by destruct s.
Qed.

Lemma same_but_index_data s s' : same_but_index s s' -> _data s' = _data s.
Proof. intros ->. done. Qed.

(** Reading [_data] at the positions of a value gives the records that
    have it. *)
Lemma data_at_positions h field v s (suf : list ref) : forall pre : list ref,
  _data s = pre ++ suf ->
  map (data_at s) (map VNum (positions h field v suf (Z.of_nat (length pre))))
    = map Some (having h field v suf).
Proof.
  induction suf as [|r suf IH]; intros pre Hd; [done|].
  assert (IH' := IH (pre ++ [r])).
  rewrite length_app, Nat2Z.inj_add in IH'. change (Z.of_nat (length [r])) with 1 in IH'.
  rewrite <- app_assoc in IH'. specialize (IH' Hd).
  unfold having in *. cbn [positions List.filter].
  destruct (has_value h r field v); cbn [app map]; [|exact IH'].
  rewrite IH'. f_equal. cbn [data_at].
  destruct (Z.ltb_spec (Z.of_nat (length pre)) 0); [lia|].
  rewrite Nat2Z.id, Hd. by rewrite lookup_app_r, Nat.sub_diag by lia.
Qed.

Lemma exact_filter_having h field v (l : list ref) :
  exact_filter h [(field, v)] [field] (map Some (having h field v l))
    = Some (map Some (having h field v l)).
Proof.
  unfold having. induction l as [|r l IH]; [done|]. simpl.
  destruct (has_value h r field v) eqn:E; [|exact IH]. simpl. rewrite IH. simpl.
  unfold all_keys_match. simpl. rewrite String.eqb_refl.
  rewrite has_value_prop in E. apply andb_prop in E as [_ E].
  by rewrite strict_eq_sym, E.
Qed.

(** X16: when the entry of an indexed field is exact, [find({field: v})]
    returns exactly the records that have the value [v] for the field, each
    once and in the order of the store.  (The registered filters play no
    part.) *)
Theorem find_by_exact_index (h : heap) (s : store) (field : string) (v : value)
    (ignoreFilters : bool) :
  index_exact h s field ->
  returned (find h (QObject [(field, v)]) ignoreFilters s)
    = Some (FArray (map Some (having h field v (_data s)))).
Proof.
  intros Hex. unfold find, bind at 1, get.
  destruct (Nat.eqb_spec (length (_data s)) 0) as [E|E].
  - destruct (_data s); [done|discriminate].
  - cbv zeta. unfold bind at 1. unfold find_object. unfold bind at 1.
    cbn [map fst collect]. unfold bind at 1.
    cbn [query_get]. rewrite String.eqb_refl.
    destruct (getIndices_exact h s field v Hex) as (s' & -> & Hs').
    cbn [fst snd app]. unfold ret at 1. unfold bind at 1, get.
    pose proof (data_at_positions h field v s' (_data s) [] ) as Hpos.
    rewrite (same_but_index_data _ _ Hs') in Hpos. specialize (Hpos eq_refl).
    change (Z.of_nat (length (@nil ref))) with 0 in Hpos.
    cbn [fst snd map app]. rewrite Hpos, exact_filter_having. done.
Qed.

(** The store of three people, looked up by last name. *)
Lemma find_by_exact_index_witness :
  returned (find people (QObject [("lname", VStr "Doe")]) false (the_store indexed_lname))
    = Some (FArray (map Some (having people "lname" (VStr "Doe")
                                (_data (the_store indexed_lname))))).
Proof.
  apply find_by_exact_index.
  apply (insert_only_index_exact people ["lname"] None None add_people "lname");
    [by left|reflexivity].
Defined.

(** ** sort *)



Section SortFacts.
Variable js_lt : value -> value -> bool.

End SortFacts.


(** ** What a lookup does to the index *)

Lemma shift_matching_filter v (b : bucket) : forall buckets,
  List.filter (bucket_matches v) buckets = [b] ->
  bucket_matches v (tl b) = false ->
  List.filter (bucket_matches v) (shift_matching v buckets) = [].
Proof.
  induction buckets as [|b0 rest IH]; intros Hf Htl; [done|].
  simpl in *. destruct (bucket_matches v b0) eqn:E.
  - injection Hf as -> Hrest. simpl. by rewrite Htl.
  - simpl. rewrite E. by apply IH.
Qed.

Lemma find_object_unindexed_empty h field v ignoreFilters s :
  getIndices field v s = Returned (Some []) s ->
  _data s <> [] ->
  find h (QObject [(field, v)]) ignoreFilters s = Returned (FArray []) s.
Proof.
  intros Hg Hd. unfold find, bind at 1, get.
  destruct (Nat.eqb_spec (length (_data s)) 0) as [E|E];
    [by destruct (_data s)|].
  cbv zeta. unfold bind at 1. unfold find_object. unfold bind at 1.
  cbn [map fst collect]. unfold bind at 1.
  cbn [query_get]. rewrite String.eqb_refl, Hg. done.
Qed.

(** The outcome of a [find] by one indexed field on an exact entry. *)
Lemma find_by_exact_index_outcome h s field v ignoreFilters :
  index_exact h s field ->
  find h (QObject [(field, v)]) ignoreFilters s
    = Returned (FArray (map Some (having h field v (_data s))))
               (final (getIndices field v s)).
Proof.
  intros Hex. unfold find, bind at 1, get.
  destruct (Nat.eqb_spec (length (_data s)) 0) as [E|E].
  - destruct Hex as (buckets & Hb & _ & Htab).
    destruct (_data s) eqn:Ed; [|discriminate]. unfold ret.
    unfold getIndices. rewrite Hb, (Htab v). done.
  - cbv zeta. unfold bind at 1. unfold find_object. unfold bind at 1.
    cbn [map fst collect]. unfold bind at 1.
    cbn [query_get]. rewrite String.eqb_refl.
    destruct (getIndices_exact h s field v Hex) as (s' & -> & Hs').
    cbn [fst snd app]. unfold ret at 1. unfold bind at 1, get.
    pose proof (data_at_positions h field v s' (_data s) [] ) as Hpos.
    rewrite (same_but_index_data _ _ Hs') in Hpos. specialize (Hpos eq_refl).
    change (Z.of_nat (length (@nil ref))) with 0 in Hpos.
    cbn [fst snd map app]. rewrite Hpos, exact_filter_having. done.
Qed.

(** X18: a lookup uses its bucket up.  On an exact entry, let some record
    have the value [v], and let [v] not be the number of the first position
    that has it (a bucket whose header equals its first position keeps
    answering).  Then the first [getIndices(field, v)] returns the positions
    of the value, and the same call made again returns the empty array; the
    same holds for [find({field: v})], which returns the matching records
    the first time and none the second time. *)
Theorem lookup_uses_up_bucket (h : heap) (s : store) (field : string) (v : value)
    (p : Z) (ps : list Z) (ignoreFilters : bool) :
  index_exact h s field ->
  positions h field v (_data s) 0 = p :: ps ->
  v <> VNum p ->
  let s1 := final (getIndices field v s) in
  getIndices field v s = Returned (Some (map VNum (p :: ps))) s1 /\
  getIndices field v s1 = Returned (Some []) s1 /\
  find h (QObject [(field, v)]) ignoreFilters s
    = Returned (FArray (map Some (having h field v (_data s)))) s1 /\
  having h field v (_data s) <> [] /\
  find h (QObject [(field, v)]) ignoreFilters s1 = Returned (FArray []) s1.
Proof.
  intros Hex Hpos Hv s1.
  pose proof (find_by_exact_index_outcome h s field v ignoreFilters Hex) as Hfind.
  fold s1 in Hfind.
  destruct Hex as (buckets & Hb & Hne & Htab).
  assert (Hf := Htab v). rewrite Hpos in Hf.
  assert (Hg1 : getIndices field v s
                = Returned (Some (map VNum (p :: ps)))
                    (set_index (<[field := shift_matching v buckets]> (_index s)) s)).
  { unfold getIndices. by rewrite Hb, Hf. }
  assert (Es1 : s1 = set_index (<[field := shift_matching v buckets]> (_index s)) s).
  { unfold s1. by rewrite Hg1. }
  assert (Hg2 : getIndices field v s1 = Returned (Some []) s1).
  { rewrite Es1. unfold getIndices. cbn [_index set_index].
    rewrite lookup_insert_eq.
    rewrite (shift_matching_filter v (v :: map VNum (p :: ps))); [done|done|].
    change (bucket_matches v (tl (v :: map VNum (p :: ps))))
      with (strict_eq (VNum p) v).
    apply strict_eq_false. congruence. }
  split; [by rewrite <- Es1 in Hg1|]. split; [exact Hg2|]. split; [exact Hfind|].
  assert (Hhave : having h field v (_data s) <> []).
  { intros E.
    assert (Hin : In p (positions h field v (_data s) 0)) by (rewrite Hpos; by left).
    apply positions_In in Hin as (k & r & Hk & _ & Hr).
    assert (Hr' : In r (having h field v (_data s))).
    { apply filter_In. split; [|done]. apply list_elem_of_In.
      by eapply list_elem_of_lookup_2. }
    by rewrite E in Hr'. }
  split; [exact Hhave|].
  apply find_object_unindexed_empty; [exact Hg2|].
  rewrite Es1. cbn [_data set_index]. intros E. by rewrite E in Hhave.
Qed.

(** The two Does of the store of three people. *)
Lemma lookup_uses_up_bucket_witness :
  let s := the_store indexed_lname in
  let s1 := final (getIndices "lname" (VStr "Doe") s) in
  getIndices "lname" (VStr "Doe") s = Returned (Some [VNum 0; VNum 1]) s1 /\
  getIndices "lname" (VStr "Doe") s1 = Returned (Some []) s1 /\
  find people (QObject [("lname", VStr "Doe")]) false s1 = Returned (FArray []) s1.
Proof.
  destruct (lookup_uses_up_bucket people (the_store indexed_lname) "lname" (VStr "Doe")
              0 [1] false) as (H1 & H2 & _ & _ & H5).
  - apply (insert_only_index_exact people ["lname"] None None add_people "lname");
      [by left|reflexivity].
  - vm_compute. reflexivity.
  - discriminate.
  - split; [exact H1|]. split; [exact H2|exact H5].
Defined.

(** ** What find and reindex touch *)

Lemma index_only_refl s : index_only s s.
Proof. split; [|done]. unfold same_but_index. by destruct s. Qed.

Lemma index_only_trans s1 s2 s3 : index_only s1 s2 -> index_only s2 s3 -> index_only s1 s3.
Proof.
  intros [H12 K12] [H23 K23]. split.
  - unfold same_but_index in *. rewrite H23 at 1. rewrite H12. by destruct s1.
  - intros f. by rewrite K23, K12.
Qed.

Lemma getIndices_index_only field v : preserves index_only (getIndices field v).
Proof.
  intros s. unfold preserves_at, getIndices.
  destruct (_index s !! field) as [buckets|] eqn:E; [|apply index_only_refl].
  destruct (List.filter _ _) as [|? [|? ?]]; try apply index_only_refl.
  split; [unfold same_but_index; by destruct s|].
  intros f. cbn [final _index set_index].
  destruct (decide (field = f)) as [<-|Hne].
  - rewrite lookup_insert_eq, E. split; eauto.
  - by rewrite lookup_insert_ne.
Qed.

Lemma collect_index_only q keys : forall acc, preserves index_only (collect q keys acc).
Proof.
  induction keys as [|field keys IH]; intros acc s; simpl.
  - apply index_only_refl.
  - frame index_only_refl index_only_trans;
      [apply getIndices_index_only|apply IH|apply IH].
Qed.

Lemma find_index_only h q ignoreFilters : preserves index_only (find h q ignoreFilters).
Proof.
  unfold find, find_object.
  frame index_only_refl index_only_trans;
    first [apply getIndices_index_only | apply collect_index_only].
Qed.

(** X19: [find] changes nothing in the store but, at most, buckets of the
    index: records, filters, change tracking, flags and event log are as
    before, and the same fields are indexed.  With a number, a predicate
    function, no query at all or [null] (which throws), the store is left
    exactly as it was.  (A stored record handed to [find] is not among
    these: unless it is an instance of NGN.DATA.Model it is read as a
    field map, and its lookups use buckets up.) *)
Theorem find_touches_only_index (h : heap) (q : query) (ignoreFilters : bool) (s : store) :
  let s' := final (find h q ignoreFilters s) in
  s' = set_index (_index s') s /\
  (forall f, is_Some (_index s' !! f) <-> is_Some (_index s !! f)) /\
  (match q with
   | QAbsent | QNull | QNumber _ | QFunction _ => True
   | QString _ | QModel _ | QObject _ => False
   end -> s' = s).
Proof.
  destruct (find_index_only h q ignoreFilters s) as [H1 H2].
  split; [exact H1|]. split; [exact H2|].
  intros Hq. unfold find, bind, get.
  destruct (Nat.eqb (length (_data s)) 0); [done|].
  destruct q; try done; cbn.
  by destruct (_ || _); [|destruct (_data s !! _)].
Qed.

(** A number, on the store of three people. *)
Lemma find_touches_only_index_witness :
  final (find people (QNumber 1) false (the_store indexed_lname)) = the_store indexed_lname.
Proof.
  destruct (find_touches_only_index people (QNumber 1) false (the_store indexed_lname))
    as (_ & _ & H).
  by apply H.
Defined.

(** [reindex] depends on the index only through the set of indexed
    fields. *)
Lemma reindex_index_only h s s' : index_only s s' -> reindex h s' = reindex h s.
Proof.
  intros [Hs Hk]. unfold reindex.
  assert (E : clearIndices s' = clearIndices s).
  { unfold clearIndices. rewrite Hs. cbn [_index set_index].
    assert (Em : (fun _ : list bucket => ([] : list bucket)) <$> _index s'
                 = (fun _ => []) <$> _index s).
    { apply map_eq. intros f. rewrite !lookup_fmap. specialize (Hk f).
      destruct (_index s' !! f), (_index s !! f); try done.
      - destruct Hk as [Hk _]. by destruct Hk.
      - destruct Hk as [_ Hk]. by destruct Hk. }
    rewrite Em. by destruct s. }
  by rewrite E.
Qed.

Lemma reindex_from_index_only h l : forall i s, index_only s (reindex_from h l i s).
Proof.
  induction l as [|r l IH]; intros i s; simpl; [apply index_only_refl|].
  eapply index_only_trans; [|apply IH]. split.
  - unfold same_but_index. by destruct s.
  - intros f. rewrite applyIndices_lookup. destruct (_index s !! f); split; eauto.
Qed.

Lemma reindex_is_index_only h s : index_only s (reindex h s).
Proof.
  unfold reindex. eapply index_only_trans; [|apply reindex_from_index_only].
  split; [unfold same_but_index, clearIndices; by destruct s|].
  intros f. unfold clearIndices. cbn [_index set_index]. rewrite lookup_fmap.
  destruct (_index s !! f); split; eauto; by intros [? ?].
Qed.

(** X20: [reindex] rebuilds the index from the records alone: run after
    any [find] it gives the store that [reindex] gives without the [find],
    so the buckets that lookups used up are restored; and run twice it
    gives what it gives run once. *)
Theorem reindex_restores (h : heap) (q : query) (ignoreFilters : bool) (s : store) :
  reindex h (final (find h q ignoreFilters s)) = reindex h s /\
  reindex h (reindex h s) = reindex h s.
Proof.
  split.
  - apply reindex_index_only, find_index_only.
  - apply reindex_index_only, reindex_is_index_only.
Qed.

(** ** updateIndice *)

Lemma updateIndice_loop_length old new num : forall buckets ct,
  length (updateIndice_loop old new num ct buckets) = length buckets.
Proof.
  induction buckets as [|b rest IH]; intros ct; [done|]. simpl.
  destruct (strict_eq (bucket_head b) old); [|destruct (strict_eq new VUndefined);
    [|destruct (strict_eq (bucket_head b) new)]];
    match goal with |- context [Nat.eqb ?c 2] => destruct (Nat.eqb c 2) end;
    simpl; by rewrite ?IH.
Qed.

Lemma splice1_snd_nil_or_head (i : Z) (b : bucket) :
  indexOf_value (VNum i) b = -1 \/ 0 < indexOf_value (VNum i) b ->
  snd (splice1 (indexOf_value (VNum i) b) b) = [] \/
  bucket_head (snd (splice1 (indexOf_value (VNum i) b) b)) = bucket_head b.
Proof.
  intros [->|Hpos].
  - destruct b as [|x b] using rev_ind; [by left|].
    rewrite splice1_last. destruct b as [|y b]; [by left|by right].
  - pose proof (findIndex_from_range (fun y => strict_eq y (VNum i)) b 0 ltac:(lia)) as Hr.
    unfold indexOf_value, findIndex in *.
    set (k := findIndex_from _ b 0) in *.
    destruct Hr as [Hr|Hr]; [lia|]. right.
    destruct (lookup_lt_is_Some_2 b (Z.to_nat k)) as [y Hy]; [lia|].
    rewrite (splice1_at k b y) by (done || lia). cbn [snd].
    destruct b as [|x b]; [done|].
    destruct (Z.to_nat k) as [|n] eqn:En; [lia|]. done.
Qed.

Lemma updateIndice_loop_no_match old new num : forall buckets ct,
  old <> new -> old <> VNum num ->
  (forall b, In b buckets -> bucket_matches new b = false) ->
  forall b, In b (updateIndice_loop old new num ct buckets) -> bucket_matches new b = false.
Proof.
  intros buckets ct Hon Hnum. revert ct.
  induction buckets as [|b0 rest IH]; intros ct Hno b Hb; [done|].
  assert (Hrest : forall b, In b rest -> bucket_matches new b = false)
    by (intros b' Hb'; apply Hno; by right).
  assert (H0 : bucket_matches new b0 = false) by (apply Hno; by left).
  simpl in Hb.
  destruct (strict_eq (bucket_head b0) old) eqn:Eold.
  - apply strict_eq_true in Eold.
    assert (Hsp : bucket_matches new (snd (splice1 (indexOf_value (VNum num) b0) b0)) = false).
    { destruct (splice1_snd_nil_or_head num b0) as [E|E].
      - unfold indexOf_value, findIndex.
        pose proof (findIndex_from_range (fun y => strict_eq y (VNum num)) b0 0 ltac:(lia)) as Hr.
        destruct Hr as [Hr|Hr]; [by left|]. right.
        destruct (Z.eq_dec (findIndex_from (fun y => strict_eq y (VNum num)) b0 0) 0) as [E0|]; [|lia].
        exfalso.
        destruct (findIndex_from_found (fun y => strict_eq y (VNum num)) b0 0)
          as (y & Hy & Ht); [lia|lia|].
        rewrite E0 in Hy. cbn in Hy. destruct b0 as [|x b0]; [done|].
        injection Hy as ->. apply strict_eq_true in Ht. cbn in Eold. congruence.
      - by rewrite E.
      - unfold bucket_matches. rewrite E, Eold.
        destruct (strict_eq old new) eqn:E'; [|by rewrite andb_false_r].
        apply strict_eq_true in E'. done. }
    destruct (Nat.eqb (S ct) 2).
    + destruct Hb as [<-|Hb]; [done|by apply Hrest].
    + destruct Hb as [<-|Hb]; [done|]. by apply (IH (S ct)).
  - destruct (strict_eq new VUndefined) eqn:Eu.
    + destruct (Nat.eqb (S ct) 2).
      * destruct Hb as [<-|Hb]; [done|by apply Hrest].
      * destruct Hb as [<-|Hb]; [done|]. by apply (IH (S ct)).
    + destruct (strict_eq (bucket_head b0) new) eqn:Enew.
      * exfalso. unfold bucket_matches in H0. rewrite Enew, andb_true_r in H0.
        destruct b0 as [|x b0]; [|done].
        change (bucket_head []) with VUndefined in Enew.
        rewrite strict_eq_sym, Eu in Enew. discriminate Enew.
      * destruct (Nat.eqb ct 2).
        -- destruct Hb as [<-|Hb]; [done|by apply Hrest].
        -- destruct Hb as [<-|Hb]; [done|]. by apply (IH ct).
Qed.

Lemma filter_none {A} (f : A -> bool) (l : list A) :
  (forall x, In x l -> f x = false) -> List.filter f l = [].
Proof.
  induction l as [|x l IH]; intros H; [done|]. simpl.
  rewrite (H x) by (by left). apply IH. intros y Hy. apply H. by right.
Qed.

(** X21: [updateIndice] never creates a bucket.  When an indexed field of
    the record at position [num] changes from [oldValue] to a different
    value that has no bucket in the index, and [oldValue] is not the number
    [num] itself (else [indexOf(num)] hits the header of the old bucket),
    the index keeps its number of buckets, the other indexed fields and the
    rest of the store are untouched, and a lookup of the new value finds no
    position: the record is not found by the value it now has. *)
Theorem updateIndice_no_new_bucket (field : string) (oldValue newValue : value) (num : Z)
    (s : store) (buckets : list bucket) :
  _index s !! field = Some buckets ->
  oldValue <> newValue ->
  oldValue <> VNum num ->
  (forall b, In b buckets -> bucket_matches newValue b = false) ->
  let s' := updateIndice field oldValue newValue num s in
  returned (getIndices field newValue s') = Some (Some []) /\
  (exists buckets', _index s' !! field = Some buckets' /\ length buckets' = length buckets) /\
  (forall f, f <> field -> _index s' !! f = _index s !! f) /\
  s' = set_index (_index s') s.
Proof.
  intros Hf Hon Hnum Hno. cbv zeta. unfold updateIndice. rewrite Hf.
  destruct (strict_eq oldValue newValue) eqn:E; [by apply strict_eq_true in E|].
  split; [|split; [|split]].
  - unfold getIndices. cbn [_index set_index]. rewrite lookup_insert_eq.
    rewrite filter_none; [done|].
    by apply updateIndice_loop_no_match.
  - eexists. cbn [_index set_index]. rewrite lookup_insert_eq. split; [done|].
    apply updateIndice_loop_length.
  - intros f Hne. cbn [_index set_index]. by rewrite lookup_insert_ne.
  - by destruct s.
Qed.

(** John Doe's last name becomes Smith: nobody is found under Smith. *)
Lemma updateIndice_no_new_bucket_witness :
  returned (getIndices "lname" (VStr "Smith")
              (updateIndice "lname" (VStr "Doe") (VStr "Smith") 0 (the_store indexed_lname)))
  = Some (Some []).
Proof.
  destruct (_index (the_store indexed_lname) !! "lname") as [buckets|] eqn:E;
    [|vm_compute in E; discriminate E].
  apply (updateIndice_no_new_bucket "lname" (VStr "Doe") (VStr "Smith") 0
           (the_store indexed_lname) buckets E).
  - discriminate.
  - discriminate.
  - vm_compute in E. injection E as <-.
    intros b [<-|[<-|[]]]; reflexivity.
Defined.

(** ** The change-tracking lists *)

Lemma deleted_NoDup_refl s : deleted_NoDup s s.
Proof. by intros ?. Qed.

Lemma deleted_NoDup_trans s1 s2 s3 :
  deleted_NoDup s1 s2 -> deleted_NoDup s2 s3 -> deleted_NoDup s1 s3.
Proof. unfold deleted_NoDup. auto. Qed.

Lemma same_tracking_deleted_NoDup s s' : same_tracking s s' -> deleted_NoDup s s'.
Proof. intros (_ & H & _) Hnd. by rewrite H. Qed.

Lemma add_deleted_NoDup h data suppressEvent :
  preserves deleted_NoDup (add h data suppressEvent).
Proof.
  unfold add, add_insert.
  frame deleted_NoDup_refl deleted_NoDup_trans; try (by intros ?).
Qed.

Lemma remove_deleted_NoDup h data suppressEvents :
  preserves deleted_NoDup (remove h data suppressEvents).
Proof.
  unfold remove.
  frame deleted_NoDup_refl deleted_NoDup_trans; try (by intros ?).
  rewrite unapplyIndices_same in *. fields_of_update. intros Hnd. fields_of_update.
  match goal with H : (indexOf_ref _ _ <? 0) = true |- _ =>
    apply Z.ltb_lt in H; rename H into Hi end.
  apply NoDup_app; repeat split; [done| |apply NoDup_singleton].
  intros x Hx [->|[]%elem_of_nil]%elem_of_cons.
  by apply indexOf_ref_neg in Hi; apply Hi, list_elem_of_In.
Qed.

Lemma bulk_deleted_NoDup h ev data : preserves deleted_NoDup (bulk h ev data).
Proof.
  unfold bulk.
  frame deleted_NoDup_refl deleted_NoDup_trans; try (by intros ?).
  - apply add_deleted_NoDup.
  - intros _. fields_of_update. constructor.
Qed.

Lemma reload_deleted_NoDup h data : preserves deleted_NoDup (reload h data).
Proof.
  unfold reload.
  frame deleted_NoDup_refl deleted_NoDup_trans.
  - apply same_tracking_deleted_NoDup, clear_tracking.
  - apply bulk_deleted_NoDup.
Qed.

Lemma step_deleted_NoDup o w :
  deleted_NoDup (the_store w) (the_store (step o w)).
Proof.
  destruct o; simpl.
  - apply add_deleted_NoDup.
  - apply remove_deleted_NoDup.
  - apply same_tracking_deleted_NoDup, notify_update_tracking.
  - apply same_tracking_deleted_NoDup, notify_delete_tracking.
  - apply bulk_deleted_NoDup.
  - apply reload_deleted_NoDup.
  - apply same_tracking_deleted_NoDup, clear_tracking.
  - apply same_tracking_deleted_NoDup, find_tracking.
  - apply same_tracking_deleted_NoDup, addFilter_tracking.
  - apply same_tracking_deleted_NoDup, removeFilter_tracking.
  - apply same_tracking_deleted_NoDup, clearFilters_tracking.
  - apply same_tracking_deleted_NoDup, createIndex_tracking.
  - apply same_tracking_deleted_NoDup, deleteIndex_tracking.
  - apply same_tracking_deleted_NoDup, reindex_tracking.
Qed.

Lemma run_deleted_NoDup ops : forall w,
  deleted_NoDup (the_store w) (the_store (run ops w)).
Proof.
  induction ops as [|o ops IH]; intros w; simpl; [apply deleted_NoDup_refl|].
  eapply deleted_NoDup_trans; [apply step_deleted_NoDup|apply IH].
Qed.

(** X22: whatever sequence of calls a new store has gone through, neither
    [_created] nor [_deleted] holds a record twice. *)
Theorem tracking_lists_NoDup (w : world) :
  reachable w ->
  NoDup (_created (the_store w)) /\ NoDup (_deleted (the_store w)).
Proof.
  intros (h & index & allowDup & errorOnDup & ops & ->). split.
  - apply run_created_NoDup. simpl. constructor.
  - apply run_deleted_NoDup. simpl. constructor.
Qed.

(** Three people added, the second removed and added again. *)
Lemma tracking_lists_NoDup_witness :
  let w := run [OpRemove (OfRecord jane_doe) false; OpAdd (Entity jane_doe) false]
               indexed_lname in
  NoDup (_created (the_store w)) /\ NoDup (_deleted (the_store w)).
Proof.
  apply tracking_lists_NoDup.
  exists people, ["lname"], None, None,
    (add_people ++ [OpRemove (OfRecord jane_doe) false; OpAdd (Entity jane_doe) false]).
  vm_compute. reflexivity.
Defined.

(** ** deduplicate *)

Lemma find_number h i ignoreFilters s r :
  0 <= i -> _data s !! Z.to_nat i = Some r ->
  find h (QNumber i) ignoreFilters s = Returned (FRecord r) s.
Proof.
  intros Hi Hr. pose proof (lookup_lt_Some _ _ _ Hr) as Hlt.
  unfold find, bind, get.
  destruct (Nat.eqb_spec (length (_data s)) 0) as [E|_]; [lia|].
  destruct (Z.ltb_spec i 0); [lia|].
  destruct (Z.leb_spec (Z.of_nat (length (_data s))) i); [lia|].
  rewrite Hr. cbn. by destruct ignoreFilters.
Qed.

Lemma findIndex_from_prefix {A} (t : A -> bool) (pre : list A) x rest : forall i,
  t x = true ->
  (findIndex_from t (pre ++ x :: rest) i <? i + Z.of_nat (length pre)) = existsb t pre.
Proof.
  induction pre as [|y pre IH]; intros i Hx; simpl.
  - rewrite Hx. apply Z.ltb_ge. lia.
  - destruct (t y); simpl.
    + apply Z.ltb_lt. lia.
    + rewrite <- (IH (i + 1) Hx). f_equal. lia.
Qed.

Lemma remove_record_step h r (suppressEvents : bool) s :
  instanceof_Model (h r) = true \/ truthy (checksum (h r)) = true ->
  In (checksum (h r)) (map (fun el => checksum (h el)) (_data s)) ->
  exists (num : nat) r0 s',
    _data s !! num = Some r0 /\ checksum (h r0) = checksum (h r) /\
    remove h (OfRecord r) suppressEvents s = Returned tt s' /\
    _data s' = delete num (_data s) /\
    _index s' = _index s /\ _filters s' = _filters s /\
    emitted s' = emitted s ++ (if suppressEvents then [] else [RecordDelete r0]).
Proof.
  intros Hobj (el & Hck & Hel)%in_map_iff.
  set (t := fun el => strict_eq (checksum (h el)) (checksum (h r))).
  assert (Enum : remove_num h (OfRecord r) s = findIndex t (_data s))
    by apply (indexOf_by_checksum h r s Hobj).
  assert (Ht : t el = true) by (by apply strict_eq_true).
  pose proof (findIndex_found t (_data s) el Hel Ht) as Hrange.
  destruct (findIndex_from_found t (_data s) 0) as (r0 & Hr0 & Ht0);
    [lia|unfold findIndex in Hrange; lia|].
  rewrite Z.sub_0_r in Hr0. apply strict_eq_true in Ht0.
  exists (Z.to_nat (findIndex t (_data s))), r0.
  unfold remove, bind, get. cbv zeta.
  rewrite Enum.
  destruct (Z.ltb_spec (findIndex t (_data s)) 0); [lia|].
  rewrite (splice1_at _ _ r0 (proj1 Hrange) Hr0).
  unfold modify, when, emit, modify, ret. rewrite unapplyIndices_same.
  cbn [_loading _created _deleted set_data].
  destruct (negb (_loading s)), (0 <=? indexOf_ref r0 (_created s)),
           (indexOf_ref r0 (_deleted s) <? 0), suppressEvents;
    eexists; (split; [exact Hr0|]); (split; [exact Ht0|]);
    (split; [reflexivity|]); cbn; by rewrite ?app_nil_r.
Qed.

Section DeduplicateFacts.
Variable stringify : heap -> ref -> string.
Variable transient_checksum : found -> value + error.

Lemma collect_dupes_refs h s records : forall dl pre dupes,
  _data s = pre ++ dl ->
  collect_dupes h records (map (stringify h) dl) (Z.of_nat (length pre)) dupes s
  = Returned (dupes ++ map FRecord (dupe_refs stringify h records dl (Z.of_nat (length pre)))) s.
Proof.
  induction dl as [|r dl IH]; intros pre dupes Hd; simpl.
  - by rewrite app_nil_r.
  - assert (E : Z.of_nat (length pre) + 1 = Z.of_nat (length (pre ++ [r])))
      by (rewrite length_app; simpl; lia).
    assert (Hd' : _data s = (pre ++ [r]) ++ dl) by (by rewrite <- app_assoc).
    destruct (indexOf_string _ _ <? _).
    + unfold bind. rewrite (find_number h _ false s r); [|lia|].
      * rewrite E, (IH _ _ Hd'). simpl. by rewrite <- app_assoc.
      * rewrite Nat2Z.id, Hd. by rewrite lookup_app_r, Nat.sub_diag by lia.
    + by rewrite E, (IH _ _ Hd').
Qed.

Lemma dupes_and_firsts h records : forall l i,
  Permutation l (dupe_refs stringify h records l i ++ first_refs stringify h records l i).
Proof.
  induction l as [|r l IH]; intros i; simpl; [done|].
  destruct (_ <? _); simpl.
  - by constructor.
  - rewrite <- Permutation_middle. by constructor.
Qed.

Lemma first_refs_fresh h : forall dl pre,
  let records := map (stringify h) (pre ++ dl) in
  let firsts := first_refs stringify h records dl (Z.of_nat (length pre)) in
  NoDup (map (stringify h) firsts) /\
  (forall r, In r firsts -> ~ In (stringify h r) (map (stringify h) pre)) /\
  (forall r, In r dl -> In (stringify h r) (map (stringify h) pre) \/
                        In (stringify h r) (map (stringify h) firsts)).
Proof.
  induction dl as [|r dl IH]; intros pre; cbv zeta; simpl.
  - split; [constructor|]. split; by intros.
  - assert (E : Z.of_nat (length pre) + 1 = Z.of_nat (length (pre ++ [r])))
      by (rewrite length_app; simpl; lia).
    assert (Hd' : pre ++ r :: dl = (pre ++ [r]) ++ dl) by (by rewrite <- app_assoc).
    destruct (IH (pre ++ [r])) as (Hnd & Hfresh & Hall). cbv zeta in *.
    rewrite <- Hd', <- E in *. clear IH.
    assert (Ht : (indexOf_string (stringify h r) (map (stringify h) (pre ++ r :: dl))
                  <? Z.of_nat (length pre))
                 = existsb (fun x => String.eqb x (stringify h r)) (map (stringify h) pre)).
    { unfold indexOf_string, findIndex. rewrite map_app. simpl.
      rewrite <- (length_map (stringify h) pre).
      apply (findIndex_from_prefix (fun x => String.eqb x (stringify h r))).
      apply String.eqb_refl. }
    rewrite Ht. clear Ht.
    assert (Hsplit : forall x, In x (map (stringify h) (pre ++ [r])) <->
                               In x (map (stringify h) pre) \/ x = stringify h r).
    { intros x. rewrite map_app, in_app_iff. simpl. intuition. }
    destruct (existsb _ _) eqn:Ex.
    + apply existsb_exists in Ex as (x & Hx & ->%String.eqb_eq).
      split; [done|]. split.
      * intros r' Hr' Hin. apply (Hfresh r' Hr'), Hsplit. by left.
      * intros r' [<-|Hr']; [by left|].
        destruct (Hall r' Hr') as [[?| ->]%Hsplit|?]; auto.
    + assert (Hnot : ~ In (stringify h r) (map (stringify h) pre)).
      { intros Hin. apply not_true_iff_false in Ex. apply Ex, existsb_exists.
        exists (stringify h r). split; [done|apply String.eqb_refl]. }
      simpl. split; [|split].
      * apply NoDup_cons. split; [|done].
        intros (r' & Heq & Hr')%list_elem_of_In%in_map_iff.
        apply (Hfresh r' Hr'), Hsplit. by right.
      * intros r' [<-|Hr']; [done|].
        intros Hin. apply (Hfresh r' Hr'), Hsplit. by left.
      * intros r' [<-|Hr']; [right; by left|].
        destruct (Hall r' Hr') as [[?| ->]%Hsplit|?]; auto.
Qed.

Lemma remove_duplicate_record h d s :
  instanceof_Model (h d) = true \/ truthy (checksum (h d)) = true ->
  remove_duplicate transient_checksum h (FRecord d) s = remove h (OfRecord d) false s.
Proof.
  intros Hobj. unfold remove_duplicate. unfold bind at 1. unfold get at 1.
  by destruct Hobj as [-> | ->]; rewrite ?orb_true_r.
Qed.

Lemma dedup_loop h : forall D s rest,
  (forall d, In d D -> instanceof_Model (h d) = true \/ truthy (checksum (h d)) = true) ->
  Permutation (map (fun el => checksum (h el)) (_data s))
              (map (fun el => checksum (h el)) D ++ rest) ->
  exists s' removed,
    forEach (map FRecord D) (remove_duplicate transient_checksum h) s
    = Returned tt s' /\
    Permutation (_data s) (removed ++ _data s') /\
    sublist (_data s') (_data s) /\
    Forall2 (fun r0 d => checksum (h r0) = checksum (h d)) removed D /\
    emitted s' = emitted s ++ map RecordDelete removed /\
    _index s' = _index s /\ _filters s' = _filters s.
Proof.
  induction D as [|d D IH]; intros s rest Hobj Hperm.
  - exists s, []. simpl. rewrite app_nil_r.
    split; [done|]. split; [done|]. split; [done|]. split; [constructor|]. done.
  - simpl in Hperm.
    destruct (remove_record_step h d false s)
      as (num & r0 & s1 & Hr0 & Hck & Hrem & Hd1 & Hi1 & Hf1 & He1).
    { apply Hobj. by left. }
    { eapply Permutation_in; [symmetry; exact Hperm|]. by left. }
    pose proof (delete_Permutation _ _ _ Hr0) as Hdel.
    destruct (IH s1 rest) as (s' & removed & Hloop & Hp & Hsub & Hall & He & Hi & Hf).
    { intros d' Hd'. apply Hobj. by right. }
    { rewrite Hd1. apply (Permutation_cons_inv (a := checksum (h d))).
      rewrite <- Hperm, <- Hck.
      symmetry. apply (Permutation_map (fun el => checksum (h el))) in Hdel. exact Hdel. }
    exists s', (r0 :: removed).
    split; [|split; [|split; [|split; [|split; [|split]]]]].
    + cbn [map forEach]. unfold bind.
      rewrite (remove_duplicate_record h d s) by (apply Hobj; by left).
      by rewrite Hrem.
    + rewrite Hdel. simpl. constructor. by rewrite <- Hd1.
    + etrans; [exact Hsub|]. rewrite Hd1. apply sublist_delete.
    + by constructor.
    + rewrite He, He1. simpl. by rewrite <- app_assoc.
    + by rewrite Hi.
    + by rewrite Hf.
Qed.

Lemma deduplicate_run h suppressEvents s :
  (forall r, In r (_data s) ->
     instanceof_Model (h r) = true \/ truthy (checksum (h r)) = true) ->
  let records := map (stringify h) (_data s) in
  let D := dupe_refs stringify h records (_data s) 0 in
  exists s' removed,
    deduplicate stringify transient_checksum h suppressEvents s = Returned tt s' /\
    Permutation (_data s) (removed ++ _data s') /\
    sublist (_data s') (_data s) /\
    Forall2 (fun r0 d => checksum (h r0) = checksum (h d)) removed D /\
    emitted s' = emitted s ++ map RecordDelete removed /\
    _index s' = _index s /\ _filters s' = _filters s.
Proof.
  intros Hobj. cbv zeta. unfold deduplicate, bind, get. cbv zeta.
  rewrite (collect_dupes_refs h s _ (_data s) [] [] eq_refl). cbn [app].
  apply (dedup_loop h _ s
           (map (fun el => checksum (h el))
                (first_refs stringify h (map (stringify h) (_data s)) (_data s) 0))).
  - intros d Hd. apply Hobj.
    eapply Permutation_in; [symmetry; apply dupes_and_firsts|].
    apply in_app_iff. left. exact Hd.
  - rewrite <- map_app. apply Permutation_map, dupes_and_firsts.
Qed.

(** X23: when every stored record is an instance of NGN.DATA.Model or has
    a truthy checksum (so that [remove] looks it up with [indexOf]),
    [deduplicate] does not throw.  It leaves as many records as there are
    distinct serializations among the stored records, all of them records
    that were stored, in the order they had; it emits 'record.delete' for
    every record it takes out, whatever [suppressEvents] is set to; and it
    leaves the index table (the positions it lists are not adjusted) and
    the filters as they were. *)
Theorem deduplicate_outcome (h : heap) (suppressEvents : option bool) (s : store) :
  (forall r, In r (_data s) ->
     instanceof_Model (h r) = true \/ truthy (checksum (h r)) = true) ->
  exists s' removed,
    deduplicate stringify transient_checksum h suppressEvents s = Returned tt s' /\
    sublist (_data s') (_data s) /\
    length (_data s') = length (remove_dups (map (stringify h) (_data s))) /\
    Permutation (_data s) (removed ++ _data s') /\
    emitted s' = emitted s ++ map RecordDelete removed /\
    _index s' = _index s /\ _filters s' = _filters s.
Proof.
  intros Hobj.
  destruct (deduplicate_run h suppressEvents s Hobj)
    as (s' & removed & Hrun & Hp & Hsub & Hall & He & Hi & Hf).
  exists s', removed. split; [exact Hrun|]. split; [exact Hsub|].
  split; [|by repeat split].
  set (records := map (stringify h) (_data s)) in *.
  destruct (first_refs_fresh h (_data s) []) as (Hnd & _ & Hin).
  cbv zeta in Hnd, Hin. simpl in Hnd, Hin. fold records in Hnd, Hin.
  set (firsts := first_refs stringify h records (_data s) 0) in *.
  assert (Hlen : length (_data s') = length firsts).
  { pose proof (dupes_and_firsts h records (_data s) 0) as Hdf. fold firsts in Hdf.
    apply Permutation_length in Hdf, Hp. apply Forall2_length in Hall.
    rewrite length_app in Hdf, Hp. lia. }
  rewrite Hlen, <- (length_map (stringify h) firsts).
  apply Permutation_length, NoDup_Permutation; [done|apply NoDup_remove_dups|].
  intros x. rewrite elem_of_remove_dups, !list_elem_of_In. split.
  - intros (r & <- & Hr)%in_map_iff. apply in_map.
    pose proof (dupes_and_firsts h records (_data s) 0) as Hdf.
    eapply Permutation_in; [symmetry; exact Hdf|]. apply in_app_iff. by right.
  - intros (r & <- & Hr)%in_map_iff. by destruct (Hin r Hr) as [[]|?].
Qed.

(** X24: when every stored record is an instance of NGN.DATA.Model or has
    a truthy checksum, and stored records with the same checksum have the
    same serialization, no two records left by [deduplicate] have the same
    serialization. *)
Theorem deduplicate_leaves_distinct (h : heap) (suppressEvents : option bool) (s : store) :
  (forall r, In r (_data s) ->
     instanceof_Model (h r) = true \/ truthy (checksum (h r)) = true) ->
  (forall a b, In a (_data s) -> In b (_data s) ->
     checksum (h a) = checksum (h b) -> stringify h a = stringify h b) ->
  NoDup (map (stringify h)
           (_data (final (deduplicate stringify transient_checksum h suppressEvents s)))).
Proof.
  intros Hobj Hsame.
  destruct (deduplicate_run h suppressEvents s Hobj)
    as (s' & removed & Hrun & Hp & Hsub & Hall & _).
  rewrite Hrun. cbn [final].
  set (records := map (stringify h) (_data s)) in *.
  destruct (first_refs_fresh h (_data s) []) as (Hnd & _).
  cbv zeta in Hnd. simpl in Hnd. fold records in Hnd.
  pose proof (dupes_and_firsts h records (_data s) 0) as Hdf.
  set (D := dupe_refs stringify h records (_data s) 0) in *.
  set (firsts := first_refs stringify h records (_data s) 0) in *.
  assert (Hstr : map (stringify h) removed = map (stringify h) D).
  { assert (HinR : forall r, In r removed -> In r (_data s)).
    { intros r Hr. eapply Permutation_in; [symmetry; exact Hp|]. apply in_app_iff. by left. }
    assert (HinD : forall r, In r D -> In r (_data s)).
    { intros r Hr. eapply Permutation_in; [symmetry; exact Hdf|]. apply in_app_iff. by left. }
    clear -Hall HinR HinD Hsame.
    induction Hall as [|r0 d removed D Hck Hall IH]; [done|]. simpl. f_equal.
    - apply Hsame; [apply HinR; by left|apply HinD; by left|done].
    - apply IH; intros r Hr; [apply HinR|apply HinD]; by right. }
  apply (Permutation_map (stringify h)) in Hp, Hdf.
  rewrite map_app in Hp, Hdf. rewrite Hstr, Hdf in Hp.
  apply Permutation_app_inv_l in Hp.
  apply NoDup_ListNoDup. eapply Permutation_NoDup; [exact Hp|]. by apply NoDup_ListNoDup.
Qed.
End DeduplicateFacts.

(** Three records, two of them twins: two are left, and the event is
    emitted. *)
Lemma deduplicate_outcome_witness :
  exists s' removed,
    deduplicate token_of (fun _ => inr TypeError) triplets None with_twins = Returned tt s' /\
    length (_data s') = 2%nat /\
    emitted s' = emitted with_twins ++ map RecordDelete removed.
Proof.
  destruct (deduplicate_outcome token_of (fun _ => inr TypeError) triplets None with_twins)
    as (s' & removed & Hrun & _ & Hlen & _ & He & _).
  - intros r Hr. right. vm_compute in Hr.
    destruct Hr as [<-|[<-|[<-|[]]]]; reflexivity.
  - exists s', removed. split; [exact Hrun|]. split; [|exact He].
    rewrite Hlen. vm_compute. reflexivity.
Defined.

Lemma deduplicate_leaves_distinct_witness :
  NoDup (map (token_of triplets)
           (_data (final (deduplicate token_of (fun _ => inr TypeError) triplets None
                            with_twins)))).
Proof.
  apply (deduplicate_leaves_distinct token_of (fun _ => inr TypeError) triplets None with_twins).
  - intros r Hr. right. vm_compute in Hr.
    destruct Hr as [<-|[<-|[<-|[]]]]; reflexivity.
  - intros a b _ _ E. unfold token_of. by rewrite E.
Defined.

(** The first test of the sanity suite on [deduplicate]: of three records,
    two of them equal, two are left, and an event is emitted. *)
Example deduplicate_twins :
  let s' := final (deduplicate token_of (fun _ => inr TypeError) triplets (Some true)
                     with_twins) in
  _data s' = [2%positive; 3%positive] /\
  emitted s' = emitted with_twins ++ [RecordDelete 1%positive].
Proof. vm_compute. split; reflexivity. Qed.

(** Two objects without a checksum in a store without a model: the
    duplicate goes to the transient model, which cannot be built. *)
Example deduplicate_without_checksum :
  let s := without_model (set_data [1%positive; 2%positive] (new_store [] None None)) in
  deduplicate token_of (fun _ => inl VUndefined) (fun _ => blank) None s
  = Thrown TypeError s.
Proof. vm_compute. reflexivity. Qed.

(** ** The handlers registered on the records *)

Lemma keeps_listeners_refl s : keeps_listeners s s.
Proof. exists []. by rewrite app_nil_r. Qed.

Lemma keeps_listeners_trans s1 s2 s3 :
  keeps_listeners s1 s2 -> keeps_listeners s2 s3 -> keeps_listeners s1 s3.
Proof. intros [l1 H1] [l2 H2]. exists (l1 ++ l2). by rewrite H2, H1, app_assoc. Qed.

Lemma same_listeners s s' : listeners s' = listeners s -> keeps_listeners s s'.
Proof. intros H. exists []. by rewrite app_nil_r. Qed.

Lemma index_only_listeners s s' : index_only s s' -> keeps_listeners s s'.
Proof. intros [H _]. apply same_listeners. by rewrite H. Qed.

Lemma updateIndice_listeners f old new num s :
  listeners (updateIndice f old new num s) = listeners s.
Proof.
  unfold updateIndice. destruct (_index s !! f); [|done].
  by destruct (strict_eq old new).
Qed.

Ltac frame_listeners :=
  frame keeps_listeners_refl keeps_listeners_trans;
  try (apply same_listeners; fields_of_update; reflexivity).

Lemma add_keeps_listeners h data suppressEvent :
  preserves keeps_listeners (add h data suppressEvent).
Proof. unfold add, add_insert. frame_listeners; by eexists. Qed.

Lemma remove_keeps_listeners h data suppressEvents :
  preserves keeps_listeners (remove h data suppressEvents).
Proof.
  unfold remove. frame_listeners.
Qed.

Lemma clear_keeps_listeners : preserves keeps_listeners clear.
Proof. unfold clear. frame_listeners. Qed.

Lemma bulk_keeps_listeners h ev data : preserves keeps_listeners (bulk h ev data).
Proof. unfold bulk. frame_listeners. apply add_keeps_listeners. Qed.

Lemma reload_keeps_listeners h data : preserves keeps_listeners (reload h data).
Proof.
  unfold reload.
  frame_listeners; first [apply clear_keeps_listeners|apply bulk_keeps_listeners].
Qed.

Lemma notify_update_keeps_listeners r f old new :
  preserves keeps_listeners (notify r (on_field_update r f old new)).
Proof.
  unfold notify, on_field_update. frame_listeners.
  apply same_listeners, updateIndice_listeners.
Qed.

Lemma notify_delete_keeps_listeners r f old :
  preserves keeps_listeners (notify r (on_field_delete r f old)).
Proof.
  unfold notify, on_field_delete. frame_listeners.
  apply same_listeners, updateIndice_listeners.
Qed.

Lemma step_keeps_listeners o w :
  keeps_listeners (the_store w) (the_store (step o w)).
Proof.
  destruct o; simpl.
  - apply add_keeps_listeners.
  - apply remove_keeps_listeners.
  - apply notify_update_keeps_listeners.
  - apply notify_delete_keeps_listeners.
  - apply bulk_keeps_listeners.
  - apply reload_keeps_listeners.
  - apply clear_keeps_listeners.
  - apply index_only_listeners, find_index_only.
  - enough (H : preserves keeps_listeners (addFilter fn)) by apply H.
    unfold addFilter. frame_listeners.
  - enough (H : preserves keeps_listeners (removeFilter fn suppressEvents)) by apply H.
    unfold removeFilter. frame_listeners.
  - enough (H : preserves keeps_listeners (clearFilters suppressEvents)) by apply H.
    unfold clearFilters. frame_listeners.
  - enough (H : preserves keeps_listeners (createIndex field suppressEvents)) by apply H.
    unfold createIndex. frame_listeners.
  - enough (H : preserves keeps_listeners (deleteIndex field suppressEvents)) by apply H.
    unfold deleteIndex. frame_listeners.
  - apply index_only_listeners, reindex_is_index_only.
Qed.

Lemma run_keeps_listeners ops : forall w,
  keeps_listeners (the_store w) (the_store (run ops w)).
Proof.
  induction ops as [|o ops IH]; intros w; simpl; [apply keeps_listeners_refl|].
  eapply keeps_listeners_trans; [apply step_keeps_listeners|apply IH].
Qed.

Lemma handlers_emit r f old new : forall (l : list ref) s,
  emitted (final (forEach l (fun _ => on_field_update r f old new) s))
  = emitted s ++ repeat (RecordUpdate r) (length l).
Proof.
  induction l as [|x l IH]; intros s; simpl; [by rewrite app_nil_r|].
  unfold bind at 1. unfold on_field_update at 1. unfold bind, get, modify, emit, modify.
  rewrite IH. cbn [emitted log_event]. rewrite <- app_assoc. simpl.
  f_equal. unfold updateIndice. destruct (_index s !! f); [|done].
  by destruct (strict_eq old new).
Qed.

(** X25: the store never takes its handlers off a record.  Once a record
    is listened to, it stays so through every sequence of calls, removal of
    the record and [clear] included, and setting one of its fields then
    makes the store emit 'record.update', once per registration. *)
Theorem listening_never_stops (w : world) (r : ref) (ops : list op)
    (field : string) (v token : value) :
  In r (listeners (the_store w)) ->
  let w' := run ops w in
  let n := registrations r (the_store w') in
  (0 < n)%nat /\
  emitted (the_store (step (OpSetField r field v token) w'))
  = emitted (the_store w') ++ repeat (RecordUpdate r) n.
Proof.
  intros Hin. cbv zeta. split.
  - destruct (run_keeps_listeners ops w) as [l Hl].
    unfold registrations. rewrite Hl.
    assert (Hin' : In r (List.filter (ref_eqb r) (listeners (the_store w) ++ l))).
    { apply filter_In. split; [apply in_app_iff; by left|]. apply Pos.eqb_refl. }
    destruct (List.filter _ _); [done|simpl; lia].
  - simpl. unfold notify, bind, get. apply handlers_emit.
Qed.

(** John Doe is removed from the store, then his last name is changed. *)
Lemma listening_never_stops_witness :
  let w' := run [OpRemove (OfRecord john_doe) false] indexed_lname in
  emitted (the_store (step (OpSetField john_doe "lname" (VStr "Smith") (VStr "d")) w'))
  = emitted (the_store w') ++ [RecordUpdate john_doe].
Proof.
  destruct (listening_never_stops indexed_lname john_doe [OpRemove (OfRecord john_doe) false]
              "lname" (VStr "Smith") (VStr "d")) as [_ H].
  - vm_compute. by left.
  - cbv zeta. rewrite H. vm_compute. reflexivity.
Defined.

(** ** load and reload *)

Lemma add_allowed h rec suppressEvent s :
  allowDuplicates s = true ->
  exists s',
    add h (Entity rec) suppressEvent s = Returned tt s' /\
    _data s' = _data s ++ [rec] /\
    allowDuplicates s' = true.
Proof.
  intros Ha.
  assert (Hins : forall s0, _data s0 = _data s -> allowDuplicates s0 = true ->
            exists s', add_insert h rec suppressEvent s0 = Returned tt s' /\
                       _data s' = _data s ++ [rec] /\ allowDuplicates s' = true).
  { intros s0 Hd Ha0.
    unfold add_insert, bind, get, listen, modify, when, emit, modify, ret.
    cbn [_data _created _loading add_listener set_data applyIndices set_index].
    destruct (negb (_loading s0) && (indexOf_ref rec (_created s0) <? 0)), suppressEvent;
      eexists; (split; [reflexivity|]); cbn; by rewrite Hd, Ha0. }
  unfold add, bind, get.
  destruct (isDuplicate h rec s); [|by apply Hins].
  unfold emit, modify. cbn [allowDuplicates log_event]. rewrite Ha. cbn [negb].
  by apply Hins.
Qed.

Lemma add_all_allowed h suppressEvent : forall rs s,
  allowDuplicates s = true ->
  exists s',
    forEach (map Entity rs) (fun rec => add h rec suppressEvent) s = Returned tt s' /\
    _data s' = _data s ++ rs /\
    allowDuplicates s' = true.
Proof.
  induction rs as [|r rs IH]; intros s Ha; cbn [map forEach].
  - exists s. by rewrite app_nil_r.
  - destruct (add_allowed h r suppressEvent s Ha) as (s1 & E1 & Hd1 & Ha1).
    destruct (IH s1 Ha1) as (s' & E & Hd & Ha').
    exists s'. unfold bind. rewrite E1. split; [done|]. split; [|done].
    by rewrite Hd, Hd1, <- app_assoc.
Qed.

(** X26: in a store that allows duplicates, [load] returns and appends the
    records to [_data] in the order given, and [reload] returns and leaves
    exactly the records given. *)
Theorem load_appends_reload_replaces (h : heap) (rs : list ref) (s : store) :
  allowDuplicates s = true ->
  (exists s', load h (map Entity rs) s = Returned tt s' /\ _data s' = _data s ++ rs) /\
  (exists s', reload h (map Entity rs) s = Returned tt s' /\ _data s' = rs).
Proof.
  intros Ha.
  assert (Hbulk : forall ev s0, allowDuplicates s0 = true ->
            exists s', bulk h ev (map Entity rs) s0 = Returned tt s' /\
                       _data s' = _data s0 ++ rs).
  { intros ev s0 Ha0.
    destruct (add_all_allowed h true rs (set_loading true s0) Ha0) as (s1 & E & Hd & _).
    unfold bulk. unfold bind at 1. unfold modify at 1. unfold bind at 1. rewrite E.
    eexists. split; [reflexivity|]. exact Hd. }
  split; [by apply Hbulk|].
  unfold reload, clear, bind, modify, emit, modify.
  destruct (Hbulk Reloaded
              (log_event Clear
                 (set_index ((fun _ : list bucket => []) <$> _index (set_data [] s))
                    (set_data [] s)))) as (s' & E & Hd); [done|].
  exists s'. split; [exact E|]. exact Hd.
Qed.

(** The store of three people reloaded with John Doe alone. *)
Lemma load_appends_reload_replaces_witness :
  exists s', reload people [Entity john_doe] (the_store indexed_lname) = Returned tt s' /\
             _data s' = [john_doe].
Proof.
  destruct (load_appends_reload_replaces people [john_doe] (the_store indexed_lname))
    as [_ H]; [vm_compute; reflexivity|].
  exact H.
Defined.

(** ** clear *)

(** X27: [clear] empties [_data]; every indexed field stays indexed, with
    no bucket; filters and both change-tracking lists are kept.  On the
    cleared store every [find], whatever the query (null included), returns
    an empty array. *)
Theorem clear_then_find (h : heap) (q : query) (ignoreFilters : bool) (s : store) :
  exists s',
    clear s = Returned tt s' /\
    _data s' = [] /\
    (forall f, _index s' !! f = (fun _ => []) <$> _index s !! f) /\
    _filters s' = _filters s /\ _created s' = _created s /\ _deleted s' = _deleted s /\
    emitted s' = emitted s ++ [Clear] /\
    find h q ignoreFilters s' = Returned (FArray []) s'.
Proof.
  eexists. split; [reflexivity|]. split; [reflexivity|].
  split; [|by repeat split].
  intros f. cbn [_index set_index log_event set_data]. apply lookup_fmap.
Qed.
